(** * tilelive-redis: a shallow embedding of [index.js]

    The module wraps an upstream [get(url, callback)] with a redis-backed
    cache.  Two strategies exist, [readthrough] and [race]; both rely on the
    codec [encode] / [decode] and on the guard that compares the client's
    [command_queue.length] with [command_queue_high_water].

    Modelling conventions.
    - A JavaScript string is represented by its UTF-8 byte sequence (a Rocq
      [string]); [new Buffer(str)] and [buf.toString()] are then the two
      conversions between [string] and [list byte].
    - A [Buffer] is a [list byte].
    - Callbacks run to completion one at a time (node's event loop); an
      invocation is driven by the list of completions it receives.
    - Everything the code does to the outside world is an [event]; a run of
      the code is the list of events in the order they happen.
    - [client.emit('error', e)] is recorded as an [Emit] event: the client
      has an error listener, so that [emit] returns.
    - An exception that leaves a callback is recorded as [Uncaught] and ends
      that callback only.
    - [options.expires], when it is not a number, is a plain object whose
      own properties hold numbers; reading a property that it does not own
      gives what [Object.prototype] has under that name, if anything.
    - [JSON.stringify], [JSON.parse] and [url.parse(..).hostname] belong to
      the platform; the development is parametric in them ([Platform]) and
      [MiniJSON] provides an executable instance. *)

From Stdlib Require Import ZArith List String Ascii Bool Lia.
From Stdlib Require Import Strings.Byte.
From Stdlib Require Import DecimalString DecimalZ DecimalPos.
From stdpp Require Import base gmap strings.

Set Warnings "-register-all".
Open Scope string_scope.
Open Scope list_scope.
Open Scope Z_scope.

(** ** JavaScript values used by the module *)

Abbreviation Buffer := (list byte).

(** [new Buffer(str)] and [buf.toString()]. *)
Definition new_Buffer (s : string) : Buffer := list_byte_of_string s.
Definition Buffer_toString (b : Buffer) : string := string_of_list_byte b.

(** [Buffer.concat(list, totalLength)]; the code always passes the exact
    total length, so nothing is ever padded. *)
Definition Buffer_concat (list : list Buffer) (totalLength : nat) : Buffer :=
  take totalLength (concat list).

(** A property of an error object ([err.status], [err.code]). *)
Inductive propval :=
| PVundefined
| PVnan
| PVnum (n : Z)
| PVstr (s : string).

(** [v === n] for a number literal [n]. *)
Definition strict_eq_num (v : propval) (n : Z) : bool :=
  match v with
  | PVnum m => m =? n
  | _ => false
  end.

(** An [Error] object with the properties the module reads or writes. *)
Record Error := mkError {
  err_message : string;
  err_status : propval;
  err_code : propval;
  err_redis : bool;
  err_key : option string
}.

(** [new Error(message)]. *)
Definition new_Error (message : string) : Error :=
  mkError message PVundefined PVundefined false None.

(** [err.key = key]. *)
Definition set_key (key : string) (e : Error) : Error :=
  mkError (err_message e) (err_status e) (err_code e) (err_redis e) (Some key).

(** JSON values; numbers are restricted to integers. An object is the list
    of its properties in enumeration order. *)
Inductive json :=
| JNull
| JBool (b : bool)
| JNum (n : Z)
| JStr (s : string)
| JArr (items : list json)
| JObj (props : list (string * json)).

(** What an upstream [get] hands to its callback as [buffer]: nothing
    ([undefined] / [null]), a string, a [Buffer], or a structured value
    (array or plain object). *)
Inductive payload :=
| PAbsent
| PText (s : string)
| PBinary (b : Buffer)
| PArray (items : list json)
| PObject (props : list (string * json)).

(** The second argument of the caller's callback. *)
Inductive jsdata :=
| JSundefined
| JSstring (s : string)
| JSbuffer (b : Buffer)
| JSjson (j : json).

Definition json_of_payload (p : payload) : json :=
  match p with
  | PArray items => JArr items
  | PObject props => JObj props
  | PText s => JStr s
  | _ => JNull
  end.

Definition payload_data (p : payload) : jsdata :=
  match p with
  | PAbsent => JSundefined
  | PText s => JSstring s
  | PBinary b => JSbuffer b
  | PArray items => JSjson (JArr items)
  | PObject props => JSjson (JObj props)
  end.

(** A stored encoding as a JavaScript value: [encode] returns a string for
    the negative outcomes and a [Buffer] otherwise; redis (with
    [return_buffers]) always answers with a [Buffer]. *)
Inductive entry :=
| EStr (s : string)
| EBuf (b : Buffer).

Definition entry_bytes (e : entry) : Buffer :=
  match e with
  | EStr s => new_Buffer s
  | EBuf b => b
  end.

(** What [decode] returns: an [Error] object or a value. *)
Inductive decoded :=
| DError (e : Error)
| DValue (d : jsdata).

(** Exceptions raised by the platform. *)
Inductive exn :=
| TypeError
| SyntaxError.

Inductive completion (A : Type) :=
| Return (a : A)
| Throw (e : exn).
Arguments Return {A} a.
Arguments Throw {A} e.

(** *** Truthiness *)

Definition string_truthy (s : string) : bool :=
  match s with
  | EmptyString => false
  | _ => true
  end.

Definition json_truthy (j : json) : bool :=
  match j with
  | JNull => false
  | JBool b => b
  | JNum n => negb (n =? 0)
  | JStr s => string_truthy s
  | JArr _ | JObj _ => true
  end.

Definition payload_truthy (p : payload) : bool :=
  match p with
  | PAbsent => false
  | PText s => string_truthy s
  | PBinary _ | PArray _ | PObject _ => true
  end.

Definition jsdata_truthy (d : jsdata) : bool :=
  match d with
  | JSundefined => false
  | JSstring s => string_truthy s
  | JSbuffer _ => true
  | JSjson j => json_truthy j
  end.

Definition entry_truthy (e : entry) : bool :=
  match e with
  | EStr s => string_truthy s
  | EBuf _ => true
  end.

Definition decoded_truthy (d : decoded) : bool :=
  match d with
  | DError _ => true
  | DValue v => jsdata_truthy v
  end.

(** *** Numbers and strings *)

(** [n.toString()] for an integer. *)
Definition Number_toString (n : Z) : string :=
  NilZero.string_of_int (Z.to_int n).

Definition digit_of_ascii (c : ascii) : option Z :=
  let n := Z.of_nat (nat_of_ascii c) in
  if (48 <=? n) && (n <=? 57) then Some (n - 48) else None.

Fixpoint parse_digits (acc : option Z) (s : string) : option Z :=
  match s with
  | EmptyString => acc
  | String c r =>
      match digit_of_ascii c with
      | Some d => parse_digits (Some (10 * default 0 acc + d)) r
      | None => acc
      end
  end.

(** [parseInt(s, 10)]: an optional sign and the longest run of digits;
    [NaN] when there is no digit. *)
Definition parseInt10 (s : string) : propval :=
  match s with
  | String "-" r =>
      match parse_digits None r with Some n => PVnum (- n) | None => PVnan end
  | String "+" r =>
      match parse_digits None r with Some n => PVnum n | None => PVnan end
  | _ =>
      match parse_digits None s with Some n => PVnum n | None => PVnan end
  end.

(** [x.slice(0, 1).toString()] and [x.slice(1)] on a string or a Buffer. *)
Definition entry_hint (encoded : entry) : string :=
  match encoded with
  | EStr s => substring 0 1 s
  | EBuf b => Buffer_toString (take 1 b)
  end.

Definition entry_rest (encoded : entry) : entry :=
  match encoded with
  | EStr s => EStr (substring 1 (String.length s - 1)%nat s)
  | EBuf b => EBuf (drop 1 b)
  end.

Definition entry_toString (e : entry) : string :=
  match e with
  | EStr s => s
  | EBuf b => Buffer_toString b
  end.

Definition entry_data (e : entry) : jsdata :=
  match e with
  | EStr s => JSstring s
  | EBuf b => JSbuffer b
  end.

(** ** The platform

    [JSON_parse] answers [None] where [JSON.parse] throws a [SyntaxError];
    [url_hostname] is [urlParse(url).hostname], [None] standing for
    [null]. *)
Class Platform := {
  JSON_stringify : json -> string;
  JSON_parse : string -> option json;
  url_hostname : string -> option string
}.

(** A small executable platform: compact JSON over integers, strings,
    arrays and objects, and a hostname reader for [scheme://host/...]. *)
Module MiniJSON.

Definition dquote : ascii := "034"%char.
Definition backslash : ascii := "092"%char.

Fixpoint escape (s : string) : string :=
  match s with
  | EmptyString => EmptyString
  | String c r =>
      if (Ascii.eqb c dquote || Ascii.eqb c backslash)%bool
      then String backslash (String c (escape r))
      else if Ascii.eqb c "010" then String backslash (String "n" (escape r))
      else if Ascii.eqb c "009" then String backslash (String "t" (escape r))
      else if Ascii.eqb c "013" then String backslash (String "r" (escape r))
      else String c (escape r)
  end.

Definition quote (s : string) : string :=
  String dquote (escape s +:+ String dquote EmptyString).

(** The texts of the elements, separated by commas. *)
Fixpoint join {A : Type} (text : A -> string) (l : list A) : string :=
  match l with
  | [] => EmptyString
  | [x] => text x
  | x :: r => text x +:+ "," +:+ join text r
  end.

Fixpoint stringify (j : json) : string :=
  match j with
  | JNull => "null"
  | JBool true => "true"
  | JBool false => "false"
  | JNum n => Number_toString n
  | JStr s => quote s
  | JArr items => "[" +:+ join stringify items +:+ "]"
  | JObj props =>
      "{" +:+ join (fun '(k, v) => quote k +:+ ":" +:+ stringify v) props +:+ "}"
  end.

Definition is_ws (c : ascii) : bool :=
  (Ascii.eqb c " " || Ascii.eqb c "010" || Ascii.eqb c "009" || Ascii.eqb c "013")%bool.

Fixpoint skip_ws (s : string) : string :=
  match s with
  | String c r => if is_ws c then skip_ws r else s
  | EmptyString => s
  end.

Definition unescape (c : ascii) : option ascii :=
  if (Ascii.eqb c dquote || Ascii.eqb c backslash || Ascii.eqb c "/")%bool then Some c
  else if Ascii.eqb c "n" then Some "010"%char
  else if Ascii.eqb c "t" then Some "009"%char
  else if Ascii.eqb c "r" then Some "013"%char
  else None.

Fixpoint parse_string_body (s : string) : option (string * string) :=
  match s with
  | EmptyString => None
  | String c r =>
      if Ascii.eqb c dquote then Some (EmptyString, r)
      else if Ascii.eqb c backslash then
        match r with
        | String e r' =>
            match unescape e, parse_string_body r' with
            | Some c', Some (t, rest) => Some (String c' t, rest)
            | _, _ => None
            end
        | EmptyString => None
        end
      else
        match parse_string_body r with
        | Some (t, rest) => Some (String c t, rest)
        | None => None
        end
  end.

Definition is_number_char (c : ascii) : bool :=
  match digit_of_ascii c with
  | Some _ => true
  | None => Ascii.eqb c "-"
  end.

Fixpoint span_number (s : string) : string * string :=
  match s with
  | String c r =>
      if is_number_char c
      then let '(lit, rest) := span_number r in (String c lit, rest)
      else (EmptyString, s)
  | EmptyString => (EmptyString, s)
  end.

Definition parse_number (s : string) : option (json * string) :=
  let '(lit, rest) := span_number s in
  match NilZero.int_of_string lit with
  | Some d => Some (JNum (Z.of_int d), rest)
  | None => None
  end.

Fixpoint strip_prefix (p s : string) : option string :=
  match p, s with
  | EmptyString, _ => Some s
  | String a p', String b s' => if Ascii.eqb a b then strip_prefix p' s' else None
  | String _ _, EmptyString => None
  end.

Definition parse_key (s : string) : option (string * string) :=
  match skip_ws s with
  | String c r =>
      if Ascii.eqb c dquote then
        match parse_string_body r with
        | Some (k, rest) =>
            match skip_ws rest with
            | String c' rest' => if Ascii.eqb c' ":" then Some (k, rest') else None
            | EmptyString => None
            end
        | None => None
        end
      else None
  | EmptyString => None
  end.

(** Whether the text goes on, after white space, with the character [c]. *)
Definition next_is (c : ascii) (s : string) : option string :=
  match skip_ws s with
  | String c' r => if Ascii.eqb c' c then Some r else None
  | EmptyString => None
  end.

Fixpoint parse_value (fuel : nat) (s : string) : option (json * string) :=
  match fuel with
  | O => None
  | S fuel' =>
      match skip_ws s with
      | EmptyString => None
      | String c r as t =>
          if Ascii.eqb c "[" then
            match next_is "]" r with
            | Some r' => Some (JArr [], r')
            | None =>
                match parse_items fuel' r with
                | Some (items, rest) => Some (JArr items, rest)
                | None => None
                end
            end
          else if Ascii.eqb c "{" then
            match next_is "}" r with
            | Some r' => Some (JObj [], r')
            | None =>
                match parse_props fuel' r with
                | Some (props, rest) => Some (JObj props, rest)
                | None => None
                end
            end
          else if Ascii.eqb c dquote then
            match parse_string_body r with
            | Some (str, rest) => Some (JStr str, rest)
            | None => None
            end
          else if Ascii.eqb c "n" then option_map (pair JNull) (strip_prefix "null" t)
          else if Ascii.eqb c "t" then option_map (pair (JBool true)) (strip_prefix "true" t)
          else if Ascii.eqb c "f" then option_map (pair (JBool false)) (strip_prefix "false" t)
          else parse_number t
      end
  end
with parse_items (fuel : nat) (s : string) : option (list json * string) :=
  match fuel with
  | O => None
  | S fuel' =>
      match parse_value fuel' s with
      | Some (v, r) =>
          match next_is "," r with
          | Some r' =>
              match parse_items fuel' r' with
              | Some (vs, rest) => Some (v :: vs, rest)
              | None => None
              end
          | None =>
              match next_is "]" r with
              | Some r' => Some ([v], r')
              | None => None
              end
          end
      | None => None
      end
  end
with parse_props (fuel : nat) (s : string) : option (list (string * json) * string) :=
  match fuel with
  | O => None
  | S fuel' =>
      match parse_key s with
      | Some (k, r0) =>
          match parse_value fuel' r0 with
          | Some (v, r) =>
              match next_is "," r with
              | Some r' =>
                  match parse_props fuel' r' with
                  | Some (kvs, rest) => Some ((k, v) :: kvs, rest)
                  | None => None
                  end
              | None =>
                  match next_is "}" r with
                  | Some r' => Some ([(k, v)], r')
                  | None => None
                  end
              end
          | None => None
          end
      | None => None
      end
  end.

Definition parse (s : string) : option json :=
  match parse_value (2 * String.length s + 2) s with
  | Some (v, rest) =>
      match skip_ws rest with
      | EmptyString => Some v
      | _ => None
      end
  | None => None
  end.

(** The number of nodes of a value. *)
Fixpoint size (j : json) : nat :=
  match j with
  | JArr items => S (list_sum (map size items))
  | JObj props => S (list_sum (map (fun '(_, v) => size v) props))
  | _ => 1
  end.

(** Texts made of digits and minus signs, and texts that a number cannot
    run into. *)
Fixpoint all_number_chars (s : string) : bool :=
  match s with
  | EmptyString => true
  | String c r => is_number_char c && all_number_chars r
  end.

Definition ends_number (rest : string) : Prop :=
  match rest with
  | String c _ => is_number_char c = false
  | EmptyString => True
  end.

(** A text that starts with a character which is neither white space nor
    a closing bracket. *)
Definition starts_value (s : string) : Prop :=
  exists c r, s = String c r /\ is_ws c = false /\
              Ascii.eqb c "]" = false /\ Ascii.eqb c "}" = false.

(** The text between [//] and the next [/], [:], [?] or [#]. *)
Fixpoint take_host (s : string) : string :=
  match s with
  | String c r =>
      if (Ascii.eqb c "/" || Ascii.eqb c ":" || Ascii.eqb c "?" || Ascii.eqb c "#")%bool
      then EmptyString
      else String c (take_host r)
  | EmptyString => EmptyString
  end.

Fixpoint hostname (s : string) : option string :=
  match s with
  | String "/" (String "/" r) => Some (take_host r)
  | String _ r => hostname r
  | EmptyString => None
  end.

End MiniJSON.

Definition mini_platform : Platform :=
  {| JSON_stringify := MiniJSON.stringify;
     JSON_parse := MiniJSON.parse;
     url_hostname := MiniJSON.hostname |}.

(** ** The cache store, the client and the options *)

Definition headers := list (string * string).

(** What the upstream [get] passes to its callback: [(err, buffer, headers)]. *)
Record outcome := mkOutcome {
  u_err : option Error;
  u_buffer : payload;
  u_headers : option headers
}.

(** What [client.get] passes to its callback: [(err, encoded)]; with
    [return_buffers] the value is a [Buffer], or [null] on a miss. *)
Inductive store_reply :=
| GetError (err : Error)
| GetReply (encoded : option Buffer).

(** The part of the redis client the guard reads. *)
Record redis_client := mkClient {
  command_queue_length : Z;
  command_queue_high_water : Z
}.

(** [options.expires]: a number, or an object from hostname to seconds
    (with an optional [default] property). *)
Inductive expires_option :=
| ExpiresNumber (n : Z)
| ExpiresByHost (table : gmap string Z).

(** The value of [expires] that is passed to [setex]: a number, or, when
    the hostname names a property that the table inherits from
    [Object.prototype], that inherited function or object. *)
Inductive expiry :=
| Seconds (n : Z)
| Inherited (name : string).
Coercion Seconds : Z >-> expiry.

(** The receiver of an upstream call: [get.call(source, ...)] or a bare
    [get(...)]. *)
Inductive receiver :=
| ThisSource
| ThisUnbound.

Inductive diagnostic :=
| HighWaterMark
| StoreFailure (err : Error)
| DecodeFailure (key : string) (e : exn).

(** The observable actions of an invocation. [Callback] is a call of the
    caller's callback, [Emit] a [client.emit('error', ...)], [Uncaught] an
    exception that leaves the running callback. *)
Inductive event :=
| StoreGet (key : string)
| StoreSetex (key : string) (ttl : expiry) (value : option entry)
| UpstreamGet (this : receiver) (url : string)
| Emit (d : diagnostic)
| Callback (err : option Error) (data : jsdata) (hdrs : option headers)
| Uncaught (e : exn).

Definition is_callback (e : event) : bool :=
  match e with Callback _ _ _ => true | _ => false end.

Definition is_store_write (e : event) : bool :=
  match e with StoreSetex _ _ _ => true | _ => false end.

Definition is_store_access (e : event) : bool :=
  match e with StoreGet _ | StoreSetex _ _ _ => true | _ => false end.

Definition is_upstream_call (e : event) : bool :=
  match e with UpstreamGet _ _ => true | _ => false end.

Definition is_emit (e : event) : bool :=
  match e with Emit _ => true | _ => false end.

Definition count (p : event -> bool) (t : list event) : nat :=
  length (List.filter p t).

(** The redis keyspace: value and time to live of every key. An entry
    given as a string is stored as its bytes. [setex] with [null] never
    happens (see [readthrough_writes_an_entry]); the model leaves the store
    as it is there.  The store is taken to accept every other write with
    the expiry it is given; a write that redis refuses reaches the code
    through the callback of [setex] only. *)
Definition store_apply (s : gmap string (Buffer * expiry)) (e : event) : gmap string (Buffer * expiry) :=
  match e with
  | StoreSetex key ttl (Some v) => <[key := (entry_bytes v, ttl)]> s
  | _ => s
  end.

Definition store_after (s : gmap string (Buffer * expiry)) (t : list event) : gmap string (Buffer * expiry) :=
  foldl store_apply s t.

Definition store_read (s : gmap string (Buffer * expiry)) (key : string) : option Buffer :=
  fst <$> s !! key.

(** [bufferEqual(a, b)] of the buffer-equal package: [undefined] ([None])
    unless both arguments are Buffers, else whether they have the same
    length and the same bytes. *)
Fixpoint Buffer_equals (a b : Buffer) : bool :=
  match a, b with
  | [], [] => true
  | x :: a', y :: b' => Byte.eqb x y && Buffer_equals a' b'
  | _, _ => false
  end.

Definition bufferEqual (a b : entry) : option bool :=
  match a, b with
  | EBuf x, EBuf y => Some (Buffer_equals x y)
  | _, _ => None
  end.

Definition optbool_truthy (o : option bool) : bool := default false o.

(** The names of the properties of [Object.prototype], which every plain
    object inherits. *)
Definition Object_prototype : list string :=
  ["constructor"; "__defineGetter__"; "__defineSetter__"; "hasOwnProperty";
   "__lookupGetter__"; "__lookupSetter__"; "isPrototypeOf";
   "propertyIsEnumerable"; "toString"; "valueOf"; "__proto__"; "toLocaleString"].

Definition inherited (name : string) : bool :=
  existsb (String.eqb name) Object_prototype.

(** [table[name]] on a plain object: the own property when there is one,
    else the property of that name of [Object.prototype], else
    [undefined]. *)
Definition table_get (table : gmap string Z) (name : string) : option expiry :=
  match table !! name with
  | Some n => Some (Seconds n)
  | None => if inherited name then Some (Inherited name) else None
  end.

(** Truthiness: the number 0 is falsy; a function or an object is truthy. *)
Definition expiry_truthy (e : expiry) : bool :=
  match e with
  | Seconds n => negb (n =? 0)
  | Inherited _ => true
  end.

(** [a || b], where [a] may be [undefined]. *)
Definition or_expiry (a : option expiry) (b : expiry) : expiry :=
  match a with
  | Some e => if expiry_truthy e then e else b
  | None => b
  end.

(** ** The module *)

Section Module.
Context {platform : Platform}.

(** [errcode(err)], lines 169-176. *)
Definition errcode (err : option Error) : option Z :=
  match err with
  | None => None
  | Some e =>
      if strict_eq_num (err_status e) 404 then Some 404
      else if strict_eq_num (err_status e) 403 then Some 403
      else if strict_eq_num (err_code e) 404 then Some 404
      else if strict_eq_num (err_code e) 403 then Some 403
      else None
  end.

(** [encode(err, buffer)], lines 178-197. The three branches on [buffer]
    are taken in the order of the source: a truthy non-Buffer object; a
    truthy non-Buffer value (a string); everything else, that is a Buffer
    or a falsy value.  In the last branch [buffer.length] throws on
    [undefined] / [null], and [Buffer.concat] throws on the empty string,
    which has no [copy] method. *)
Definition encode (err : option Error) (buffer : payload) : completion (option entry) :=
  match errcode err with
  | Some n => Return (Some (EStr ("E" +:+ Number_toString n)))
  | None =>
      match err with
      | Some _ => Return None
      | None =>
          match buffer with
          | PArray _ | PObject _ =>
              let buffer := new_Buffer (JSON_stringify (json_of_payload buffer)) in
              Return (Some (EBuf (Buffer_concat [new_Buffer "O"; buffer] (length buffer + 1))))
          | PText s =>
              if string_truthy s then
                let buffer := new_Buffer s in
                Return (Some (EBuf (Buffer_concat [new_Buffer "S"; buffer] (length buffer + 1))))
              else Throw TypeError
          | PBinary b =>
              Return (Some (EBuf (Buffer_concat [new_Buffer "B"; b] (length b + 1))))
          | PAbsent => Throw TypeError
          end
      end
  end.

(** [decode(encoded)], lines 199-216. *)
Definition decode (encoded : entry) : completion decoded :=
  let types := ["O"; "S"; "B"] in
  let hint := entry_hint encoded in
  let buffer := entry_rest encoded in
  if String.eqb hint "E" &&
     (String.eqb (entry_toString buffer) "404" || String.eqb (entry_toString buffer) "403")
  then
    Return (DError (mkError EmptyString
                      (parseInt10 (entry_toString buffer))
                      (parseInt10 (entry_toString buffer))
                      true None))
  else if negb (existsb (String.eqb hint) types)
  then Return (DError (new_Error "Invalid cache value"))
  else if String.eqb hint "O" then
    match JSON_parse (entry_toString buffer) with
    | Some j => Return (DValue (JSjson j))
    | None => Throw SyntaxError
    end
  else if String.eqb hint "S" then Return (DValue (JSstring (entry_toString buffer)))
  else Return (DValue (entry_data buffer)).

Section CachingGet.
Variable namespace : string.
Variable expires_opt : expires_option.

(** [namespace + '-' + url]. *)
Definition cache_key (url : string) : string := namespace +:+ "-" +:+ url.

(** The computation of [expires], lines 52-57 and 114-119. *)
Definition resolve_expires (url : string) : expiry :=
  match expires_opt with
  | ExpiresNumber n => Seconds n
  | ExpiresByHost table =>
      or_expiry (table_get table (default "null" (url_hostname url)))
                (or_expiry (table_get table "default") (Seconds 300))
  end.

(** [client.command_queue.length < client.command_queue_high_water]. *)
Definition below_high_water (client : redis_client) : bool :=
  command_queue_length client <? command_queue_high_water client.

(** The callback given to [client.setex], lines 102-106 and 149-153. *)
Definition setex_callback (key : string) (err : option Error) : list event :=
  match err with
  | None => []
  | Some e => [Emit (StoreFailure (set_key key e))]
  end.

(** *** readthrough, lines 110-160 *)

(** The callback given to the upstream [get] on a miss, lines 145-154. *)
Definition readthrough_upstream_callback (url : string) (o : outcome) : list event :=
  let key := cache_key url in
  let expires := resolve_expires url in
  match u_err o, errcode (u_err o) with
  | Some _, None => [Callback (u_err o) JSundefined None]
  | _, _ =>
      Callback (u_err o) (payload_data (u_buffer o)) (u_headers o) ::
      match encode (u_err o) (u_buffer o) with
      | Return v => [StoreSetex key expires v]
      | Throw e => [Uncaught e]
      end
  end.

(** The callback given to [client.get], lines 122-155. *)
Definition readthrough_store_callback (url : string)
    (upstream : receiver -> string -> outcome) (r : store_reply) : list event :=
  let key := cache_key url in
  match r with
  | GetError err =>
      let o := upstream ThisUnbound url in
      [Emit (StoreFailure (set_key key err)); UpstreamGet ThisUnbound url;
       Callback (u_err o) (payload_data (u_buffer o)) (u_headers o)]
  | GetReply encoded =>
      let '(data, diag) :=
        match encoded with
        | Some b =>
            match decode (EBuf b) with
            | Return d => (Some d, [])
            | Throw e => (None, [Emit (DecodeFailure key e)])
            end
        | None => (None, [])
        end in
      match data with
      | Some (DError e) => diag ++ [Callback (Some e) JSundefined None]
      | Some (DValue d) =>
          if jsdata_truthy d then diag ++ [Callback None d None]
          else diag ++ UpstreamGet ThisSource url ::
               readthrough_upstream_callback url (upstream ThisSource url)
      | None =>
          diag ++ UpstreamGet ThisSource url ::
          readthrough_upstream_callback url (upstream ThisSource url)
      end
  end.

Definition readthrough (client : redis_client) (url : string)
    (upstream : receiver -> string -> outcome) (r : store_reply) : list event :=
  if below_high_water client then
    StoreGet (cache_key url) :: readthrough_store_callback url upstream r
  else
    let o := upstream ThisSource url in
    [Emit HighWaterMark; UpstreamGet ThisSource url;
     Callback (u_err o) (payload_data (u_buffer o)) (u_headers o)].

(** *** race, lines 48-108 *)

(** The variables shared by the two callbacks. *)
Record race_vars := mkVars {
  sent : bool;
  cached : option entry;
  current : option entry
}.

Definition race_init : race_vars := mkVars false None None.

(** [finalize()], lines 100-107. *)
Definition finalize (url : string) (cached current : entry) : list event :=
  if optbool_truthy (bufferEqual cached current) then []
  else [StoreSetex (cache_key url) (resolve_expires url) (Some current)].

(** [if (cached && current) finalize();] *)
Definition reconcile (url : string) (v : race_vars) : list event :=
  match cached v, current v with
  | Some ca, Some cu =>
      if entry_truthy ca && entry_truthy cu then finalize url ca cu else []
  | _, _ => []
  end.

(** The callback given to the upstream [get], lines 63-69. *)
Definition race_upstream_callback (url : string) (o : outcome) (v : race_vars)
  : race_vars * list event :=
  match encode (u_err o) (u_buffer o) with
  | Throw e => (v, [Uncaught e])
  | Return cur =>
      let v1 := mkVars (sent v) (cached v) cur in
      if sent v1 then (v1, reconcile url v1)
      else (mkVars true (cached v1) (current v1),
            reconcile url v1 ++
            [Callback (u_err o) (payload_data (u_buffer o)) (u_headers o)])
  end.

(** The callback given to [client.get], lines 75-95. *)
Definition race_store_callback (url : string) (r : store_reply) (v : race_vars)
  : race_vars * list event :=
  let key := cache_key url in
  match r with
  | GetError err => (v, [Emit (StoreFailure (set_key key err))])
  | GetReply encoded =>
      let v1 := mkVars (sent v) (Some (from_option EBuf (EStr "500") encoded)) (current v) in
      match encoded with
      | None => (v1, reconcile url v1)
      | Some b =>
          if sent v1 then (v1, reconcile url v1)
          else
            match decode (EBuf b) with
            | Throw e =>
                (mkVars (sent v1) (Some (EStr "500")) (current v1),
                 reconcile url v1 ++ [Emit (DecodeFailure key e)])
            | Return (DError e) =>
                (mkVars true (cached v1) (current v1),
                 reconcile url v1 ++ [Callback (Some e) JSundefined None])
            | Return (DValue d) =>
                if jsdata_truthy d
                then (mkVars true (cached v1) (current v1),
                      reconcile url v1 ++ [Callback None d None])
                else (v1, reconcile url v1)
            end
      end
  end.

(** The completions an invocation receives, in the order they arrive. *)
Inductive arrival :=
| UpstreamDone (o : outcome)
| StoreDone (r : store_reply).

Fixpoint race_callbacks (url : string) (arrivals : list arrival) (v : race_vars)
  : list event :=
  match arrivals with
  | [] => []
  | UpstreamDone o :: rest =>
      let '(v', t) := race_upstream_callback url o v in
      t ++ race_callbacks url rest v'
  | StoreDone r :: rest =>
      let '(v', t) := race_store_callback url r v in
      t ++ race_callbacks url rest v'
  end.

(** The body of [race], lines 48-98: the upstream call is issued, then the
    store lookup if the guard lets it through. *)
Definition race_issue (client : redis_client) (url : string) : list event :=
  UpstreamGet ThisSource url ::
  (if below_high_water client then [StoreGet (cache_key url)] else [Emit HighWaterMark]).

Definition race (client : redis_client) (url : string) (arrivals : list arrival)
  : list event :=
  race_issue client url ++ race_callbacks url arrivals race_init.

(** An invocation receives at most one completion of each call it issued. *)
Definition upstream_arrivals (arrivals : list arrival) : nat :=
  length (List.filter (fun a => match a with UpstreamDone _ => true | _ => false end) arrivals).

Definition store_arrivals (arrivals : list arrival) : nat :=
  length (List.filter (fun a => match a with StoreDone _ => true | _ => false end) arrivals).

End CachingGet.

(** *** Notions used to state the properties *)

(** The outcome a caller is given, read from the callback's arguments: a
    success with its data, one of the two failures that [errcode]
    recognises, or another failure. *)
Inductive FetchOutcome :=
| Ok (data : jsdata)
| NotFound
| Forbidden
| OtherError.

Definition outcome_kind (err : option Error) (data : jsdata) : FetchOutcome :=
  match err with
  | None => Ok data
  | Some _ =>
      match errcode err with
      | Some n => if n =? 404 then NotFound else Forbidden
      | None => OtherError
      end
  end.

Definition decoded_kind (d : decoded) : FetchOutcome :=
  match d with
  | DError e => outcome_kind (Some e) JSundefined
  | DValue v => Ok v
  end.

(** [callback(err, buffer, headers)] with an upstream outcome, and
    [callback(data)] / [callback(null, data)] with a decoded value. *)
Definition deliver_outcome (o : outcome) : event :=
  Callback (u_err o) (payload_data (u_buffer o)) (u_headers o).

Definition deliver_decoded (d : decoded) : event :=
  match d with
  | DError e => Callback (Some e) JSundefined None
  | DValue v => Callback None v None
  end.

(** The calls of the caller's callback in a run. *)
Definition delivered (t : list event) : list event := List.filter is_callback t.

(** A failure that [errcode] does not recognise. *)
Definition opaque_failure (o : outcome) : Prop :=
  u_err o <> None /\ errcode (u_err o) = None.

(** An outcome of one of the kinds the codec has a tag for: a failure
    recognised by [errcode], or a success with a text, binary or structured
    payload. *)
Definition representable (err : option Error) (buffer : payload) : Prop :=
  match err with
  | Some _ => errcode err <> None
  | None => buffer <> PAbsent
  end.

(** The same, with the truthiness test of [encode] on the payload: the
    empty string is left out. *)
Definition encodable (err : option Error) (buffer : payload) : Prop :=
  match err with
  | Some _ => errcode err <> None
  | None => payload_truthy buffer = true
  end.

(** The entry as redis gives it back. *)
Definition stored (e : entry) : entry := EBuf (entry_bytes e).

(** [decode(encode(err, buffer))] is the outcome [(err, buffer)]. *)
Definition round_trip (err : option Error) (buffer : payload) : Prop :=
  exists e d,
    encode err buffer = Return (Some e) /\
    decode e = Return d /\
    decoded_kind d = outcome_kind err (payload_data buffer).

Definition round_trip_stored (err : option Error) (buffer : payload) : Prop :=
  exists e d,
    encode err buffer = Return (Some e) /\
    decode (stored e) = Return d /\
    decoded_kind d = outcome_kind err (payload_data buffer).

(** [JSON.parse(JSON.stringify(x))] gives [x] back for the payload [x]. *)
Definition JSON_faithful (buffer : payload) : Prop :=
  match buffer with
  | PArray _ | PObject _ =>
      JSON_parse (JSON_stringify (json_of_payload buffer)) = Some (json_of_payload buffer)
  | _ => True
  end.

(** An entry whose decoding fails: its tag is none of [O], [S], [B], [E];
    or the tag is [E] and the rest is neither [404] nor [403]; or the tag
    is [O] and [JSON.parse] rejects the rest. *)
Definition undecodable (b : Buffer) : Prop :=
  let hint := entry_hint (EBuf b) in
  let rest := entry_toString (entry_rest (EBuf b)) in
  ~ In hint ["O"; "S"; "B"; "E"] \/
  (hint = "E" /\ rest <> "404" /\ rest <> "403") \/
  (hint = "O" /\ JSON_parse rest = None).

(** A run [t] of [readthrough] that handles the lookup as a miss: a
    diagnostic is emitted, the upstream is called, and the caller is given
    what the upstream callback passes on. *)
Definition handled_as_miss (namespace : string) (expires_opt : expires_option)
    (url : string) (o : outcome) (t : list event) : Prop :=
  (exists d, In (Emit d) t) /\
  In (UpstreamGet ThisSource url) t /\
  delivered t = delivered (readthrough_upstream_callback namespace expires_opt url o).

(** On a hit for the entry of the outcome [o], the caller is given exactly
    what the upstream would have passed: error, payload and headers. *)
Definition cache_hit_transparent (namespace : string) (expires_opt : expires_option)
    (client : redis_client) (url : string) (upstream : receiver -> string -> outcome)
    (o : outcome) : Prop :=
  forall e,
    encode (u_err o) (u_buffer o) = Return (Some e) ->
    delivered (readthrough namespace expires_opt client url upstream
                 (GetReply (Some (entry_bytes e)))) = [deliver_outcome o].

(** In [race], an entry that [decode] accepts and that arrives before the
    upstream outcome is what the caller is given. *)
Definition cached_value_wins (namespace : string) (expires_opt : expires_option)
    (client : redis_client) (url : string) (b : Buffer) (o : outcome) : Prop :=
  forall d,
    decode (EBuf b) = Return d ->
    delivered (race namespace expires_opt client url
                 [StoreDone (GetReply (Some b)); UpstreamDone o]) = [deliver_decoded d].

(** [cachingGet], lines 23-46: the defaults and the choice of strategy. *)
Inductive strategy :=
| Readthrough
| Race.

Definition cachingGet_mode (mode : option string) : option strategy :=
  let mode := default "readthrough" mode in
  if String.eqb mode "readthrough" then Some Readthrough
  else if String.eqb mode "race" then Some Race
  else None.

Definition cachingGet_expires (expires : option expires_option) : option expires_option :=
  match default (ExpiresNumber 300) expires with
  | ExpiresNumber 0 => None
  | e => Some e
  end.

End Module.
(** ** Construction, lines 6-46 *)

(** What a constructor gives: the value it returns, or the message of the
    [Error] it throws. *)
Inductive construction (A : Type) :=
| Built (a : A)
| Fails (message : string).
Arguments Built {A} a.
Arguments Fails {A} message.

(** The setting of a redis client that the module touches. *)
Record redis_settings := mkSettings {
  return_buffers : bool
}.

(** [redis.createClient({return_buffers: true})]. *)
Definition redis_createClient (buffers : bool) : redis_settings := mkSettings buffers.

(** The [options] object as the caller passes it; a property may be
    missing. *)
Record user_options := mkOptions {
  opt_client : option redis_settings;
  opt_expires : option expires_option;
  opt_mode : option string
}.

(** The function [cachingGet] returns, with what it closes over:
    [namespace], the options after the defaults are filled in, the upstream
    [get], and the strategy that was chosen. *)
Record decorated := mkDecorated {
  d_namespace : string;
  d_client : redis_settings;
  d_expires : expires_option;
  d_mode : string;
  d_get : receiver -> string -> outcome;
  d_strategy : strategy
}.

(** [!options.expires]: the number 0 is falsy, an object is truthy. *)
Definition expires_truthy (e : expires_option) : bool :=
  match e with
  | ExpiresNumber n => negb (n =? 0)
  | ExpiresByHost _ => true
  end.

(** [module.exports.cachingGet(namespace, options, get)], lines 23-46 and
    162.  The tests are made in the order of the source. *)
Definition cachingGet (namespace : option string) (options : option user_options)
    (get : option (receiver -> string -> outcome)) : construction decorated :=
  match get with
  | None => Fails "No get function provided"
  | Some get =>
      if negb (string_truthy (default EmptyString namespace))
      then Fails "No namespace provided"
      else
        let options := default (mkOptions None None None) options in
        let client :=
          match opt_client options with
          | Some _ => Some (mkSettings true)
          | None => Some (redis_createClient true)
          end in
        let expires := default (ExpiresNumber 300) (opt_expires options) in
        let mode := default "readthrough" (opt_mode options) in
        match client with
        | None => Fails "No redis client"
        | Some client =>
            if negb (expires_truthy expires) then Fails "No expires option set"
            else if String.eqb mode "readthrough" then
              Built (mkDecorated (default EmptyString namespace) client expires mode get
                       Readthrough)
            else if String.eqb mode "race" then
              Built (mkDecorated (default EmptyString namespace) client expires mode get Race)
            else Fails ("Invalid value for options.mode " +:+ mode)
        end
  end.

(** A class to wrap: its prototype may or may not have a [get]. *)
Record source_class := mkSource {
  prototype_get : option (receiver -> string -> outcome)
}.

(** [module.exports(options, Source)], lines 6-21: the [get] of the class
    it returns. *)
Definition module_exports (options : option user_options) (Source : option source_class)
  : construction decorated :=
  match Source with
  | None => Fails "No source provided"
  | Some cls =>
      match prototype_get cls with
      | None => Fails "No get method found on source"
      | Some get => cachingGet (Some "TL") options (Some get)
      end
  end.

(** A call of the decorated function: the strategy that [cachingGet]
    chose, run with the namespace, the expiry and the upstream it closed
    over.  [r] is what the store answers to [readthrough], [arrivals] what
    [race] receives. *)
Definition decorated_call {platform : Platform} (d : decorated) (client : redis_client)
    (url : string) (r : store_reply) (arrivals : list arrival) : list event :=
  match d_strategy d with
  | Readthrough => readthrough (d_namespace d) (d_expires d) client url (d_get d) r
  | Race => race (d_namespace d) (d_expires d) client url arrivals
  end.

(** A character that occurs in a string. *)
Fixpoint occurs (c : ascii) (s : string) : bool :=
  match s with
  | EmptyString => false
  | String x r => Ascii.eqb x c || occurs c r
  end.

(** ** Sample values *)

Definition ttl300 : expires_option := ExpiresNumber 300.
Definition idle_client : redis_client := mkClient 0 1000.
Definition saturated_client : redis_client := mkClient 1000 1000.
Definition not_found_error : Error :=
  mkError "Not found" (PVnum 404) PVundefined false None.
Definition server_error : Error :=
  mkError "Internal error" (PVnum 500) PVundefined false None.
Definition connection_error : Error :=
  mkError "Connection lost" PVundefined PVundefined false None.
Definition ok_text (s : string) : outcome := mkOutcome None (PText s) None.
Definition fixed_upstream (o : outcome) : receiver -> string -> outcome :=
  fun _ _ => o.
Definition png_headers : headers := [("Content-Type", "image/png")].

Definition lookup (s : gmap string (Buffer * expiry)) (key : string) : store_reply :=
  GetReply (store_read s key).

Definition per_host : expires_option :=
  ExpiresByHost (<["a.com" := 60]> (<["default" := 300]> ∅)).

Definition not_open_error : Error :=
  mkError "Source not open" PVundefined PVundefined false None.

(** An upstream [get] that reads its receiver: called on the source it
    answers with the tile, called without it it fails. *)
Definition source_bound_get : receiver -> string -> outcome :=
  fun this _ =>
    match this with
    | ThisSource => ok_text "tile"
    | ThisUnbound => mkOutcome (Some not_open_error) PAbsent None
    end.

Definition host_table : gmap string Z := <["a.com" := 60]> (<["default" := 300]> ∅).
Definition code_not_found_error : Error :=
  mkError "Missing" PVundefined (PVnum 404) false None.
Definition hello : outcome := ok_text "hello".
Definition race_options : user_options :=
  mkOptions None (Some (ExpiresByHost host_table)) (Some "race").
Definition bogus_options : user_options := mkOptions None None (Some "bogus").

(** ** The sample platform reads back what it writes *)

Module MiniJSONFacts.
Import MiniJSON.

Lemma append_cons (x : ascii) (a b : string) : String x a +:+ b = String x (a +:+ b).
Proof. reflexivity. Qed.

Lemma append_nil (b : string) : EmptyString +:+ b = b.
Proof. reflexivity. Qed.

Lemma append_assoc (a b c : string) : (a +:+ b) +:+ c = a +:+ (b +:+ c).
Proof.
  induction a as [|x a IH]; [reflexivity|]. rewrite !append_cons. now rewrite IH.
Qed.

Lemma append_empty (a : string) : a +:+ EmptyString = a.
Proof.
  induction a as [|x a IH]; [reflexivity|]. rewrite append_cons. now rewrite IH.
Qed.

Lemma length_append (a b : string) :
  String.length (a +:+ b) = (String.length a + String.length b)%nat.
Proof.
  induction a as [|x a IH]; [reflexivity|]. rewrite append_cons. simpl. now rewrite IH.
Qed.

Lemma parse_string_body_escape (s rest : string) :
  parse_string_body (escape s +:+ String dquote rest) = Some (s, rest).
Proof.
  induction s as [|c r IH]; [reflexivity|].
  cbn [escape].
  destruct (Ascii.eqb_spec c dquote) as [->|Hq].
  { cbn [orb]. rewrite !append_cons. cbn. now rewrite IH. }
  destruct (Ascii.eqb_spec c backslash) as [->|Hb].
  { cbn [orb]. rewrite !append_cons. cbn. now rewrite IH. }
  cbn [orb].
  destruct (Ascii.eqb_spec c "010") as [->|H1].
  { rewrite !append_cons. cbn. now rewrite IH. }
  destruct (Ascii.eqb_spec c "009") as [->|H2].
  { rewrite !append_cons. cbn. now rewrite IH. }
  destruct (Ascii.eqb_spec c "013") as [->|H3].
  { rewrite !append_cons. cbn. now rewrite IH. }
  rewrite append_cons. cbn [parse_string_body].
  apply Ascii.eqb_neq in Hq, Hb. now rewrite Hq, Hb, IH.
Qed.

Lemma span_number_app (lit rest : string) :
  all_number_chars lit = true -> ends_number rest ->
  span_number (lit +:+ rest) = (lit, rest).
Proof.
  intros Hl Hr. induction lit as [|c r IH].
  - rewrite append_nil. destruct rest as [|c r]; [reflexivity|]. simpl in *. now rewrite Hr.
  - simpl in Hl. apply andb_true_iff in Hl as [Hc Hl].
    rewrite append_cons. simpl. now rewrite Hc, IH.
Qed.

Lemma uint_number_chars (d : Decimal.uint) :
  all_number_chars (NilEmpty.string_of_uint d) = true.
Proof. induction d; simpl; auto. Qed.

Lemma Number_toString_chars (n : Z) : all_number_chars (Number_toString n) = true.
Proof.
  unfold Number_toString. destruct n as [|p|p]; simpl; [reflexivity| |].
  - destruct (Pos.to_uint p); apply uint_number_chars || reflexivity.
  - destruct (Pos.to_uint p); simpl; apply uint_number_chars || reflexivity.
Qed.

Lemma Number_toString_parse (n : Z) :
  NilZero.int_of_string (Number_toString n) = Some (Z.to_int n).
Proof.
  unfold Number_toString. apply NilZero.isi.
  - destruct n as [|p|p]; simpl; try discriminate.
    intros [= H]. now apply (Unsigned.to_uint_nonnil p).
  - destruct n as [|p|p]; simpl; try discriminate.
    intros [= H]. now apply (Unsigned.to_uint_nonnil p).
Qed.

Lemma parse_number_toString (n : Z) (rest : string) :
  ends_number rest ->
  parse_number (Number_toString n +:+ rest) = Some (JNum n, rest).
Proof.
  intros H. unfold parse_number.
  rewrite (span_number_app _ _ (Number_toString_chars n) H).
  now rewrite Number_toString_parse, DecimalZ.of_to.
Qed.

Lemma Number_toString_head (n : Z) :
  exists c r, Number_toString n = String c r /\ is_number_char c = true.
Proof.
  pose proof (Number_toString_chars n) as H.
  assert (Hne : Number_toString n <> EmptyString).
  { unfold Number_toString. destruct n as [|p|p]; simpl; try discriminate.
    pose proof (Unsigned.to_uint_nonnil p) as Hp.
    destruct (Pos.to_uint p); simpl; congruence. }
  destruct (Number_toString n) as [|c r]; [congruence|].
  simpl in H. apply andb_true_iff in H as [H _]. eauto.
Qed.

Lemma number_char_dispatch (c : ascii) :
  is_number_char c = true ->
  is_ws c = false /\ Ascii.eqb c "[" = false /\ Ascii.eqb c "{" = false /\
  Ascii.eqb c dquote = false /\ Ascii.eqb c "n" = false /\ Ascii.eqb c "t" = false /\
  Ascii.eqb c "f" = false /\ Ascii.eqb c "]" = false /\ Ascii.eqb c "}" = false.
Proof.
  destruct c as [[] [] [] [] [] [] [] []]; intros H;
    (discriminate H || (repeat split; reflexivity)).
Qed.

Lemma skip_ws_starts (s : string) : starts_value s -> skip_ws s = s.
Proof. intros (c & r & -> & H & _). simpl. now rewrite H. Qed.

Lemma next_is_starts (c : ascii) (s : string) :
  starts_value s -> c = "]"%char \/ c = "}"%char -> next_is c s = None.
Proof.
  intros Hs Hc. unfold next_is. rewrite (skip_ws_starts _ Hs).
  destruct Hs as (c' & r & -> & _ & H1 & H2). now destruct Hc as [-> | ->]; rewrite ?H1, ?H2.
Qed.

Lemma next_is_here (c : ascii) (r : string) :
  is_ws c = false -> next_is c (String c r) = Some r.
Proof. intros H. unfold next_is. simpl. now rewrite H, Ascii.eqb_refl. Qed.

Lemma stringify_starts (j : json) (rest : string) : starts_value (stringify j +:+ rest).
Proof.
  destruct j as [|[]|n|s|l|l]; cbn [stringify];
    try (eexists _, _; split; [reflexivity|]; repeat split; reflexivity).
  destruct (Number_toString_head n) as (c & r & E & Hc).
  destruct (number_char_dispatch c Hc) as (H1 & _ & _ & _ & _ & _ & _ & H2 & H3).
  rewrite E, append_cons. eexists _, _. split; [reflexivity|]. auto.
Qed.

Lemma join_cons {A : Type} (text : A -> string) (x : A) (l : list A) :
  l <> [] -> join text (x :: l) = text x +:+ "," +:+ join text l.
Proof. destruct l; [congruence|reflexivity]. Qed.

Lemma size_pos (j : json) : (1 <= size j)%nat.
Proof. destruct j; simpl; lia. Qed.

Lemma parse_value_string (f : nat) (r : string) :
  parse_value (S f) (String dquote r) =
  match parse_string_body r with
  | Some (str, rest) => Some (JStr str, rest)
  | None => None
  end.
Proof. reflexivity. Qed.

Lemma parse_value_array (f : nat) (r : string) :
  parse_value (S f) (String "[" r) =
  match next_is "]" r with
  | Some r' => Some (JArr [], r')
  | None =>
      match parse_items f r with
      | Some (items, rest) => Some (JArr items, rest)
      | None => None
      end
  end.
Proof. reflexivity. Qed.

Lemma parse_value_object (f : nat) (r : string) :
  parse_value (S f) (String "{" r) =
  match next_is "}" r with
  | Some r' => Some (JObj [], r')
  | None =>
      match parse_props f r with
      | Some (props, rest) => Some (JObj props, rest)
      | None => None
      end
  end.
Proof. reflexivity. Qed.

Lemma parse_value_number (f : nat) (c : ascii) (r : string) :
  is_number_char c = true ->
  parse_value (S f) (String c r) = parse_number (String c r).
Proof.
  intros Hc.
  destruct (number_char_dispatch c Hc) as (H1 & H2 & H3 & H4 & H5 & H6 & H7 & _).
  cbn [parse_value skip_ws]. now rewrite H1, H2, H3, H4, H5, H6, H7.
Qed.

Lemma items_size_bound (l : list json) (n : nat) :
  (list_sum (map size l) <= n)%nat -> Forall (fun x => (size x <= n)%nat) l.
Proof.
  revert n. induction l as [|x l IHl]; intros n H; constructor; simpl in H.
  - lia.
  - apply IHl. lia.
Qed.

Lemma props_size_bound (l : list (string * json)) (n : nat) :
  (list_sum (map (fun '(_, v) => size v) l) <= n)%nat ->
  Forall (fun kv => (size (snd kv) <= n)%nat) l.
Proof.
  revert n. induction l as [|[k x] l IHl]; intros n H; constructor; simpl in *.
  - lia.
  - apply IHl. lia.
Qed.

Section Bounded.
Variable n : nat.
Hypothesis IH : forall j, (size j <= n)%nat -> forall fuel rest,
  (2 * size j <= fuel)%nat -> ends_number rest ->
  parse_value fuel (stringify j +:+ rest) = Some (j, rest).

Lemma parse_items_join (l : list json) :
  l <> [] -> Forall (fun x => (size x <= n)%nat) l ->
  forall fuel rest, (2 * list_sum (map size l) + 1 <= fuel)%nat ->
  parse_items fuel (join stringify l +:+ String "]" rest) = Some (l, rest).
Proof.
  induction l as [|x l IHl]; [congruence|]. intros _ Hall fuel rest Hf.
  apply Forall_cons in Hall as [Hx Hall].
  destruct fuel as [|f]; [lia|]. simpl in Hf. pose proof (size_pos x) as Hp.
  destruct l as [|y l].
  - cbn [join parse_items].
    rewrite (IH x Hx) by (simpl; lia || exact eq_refl).
    reflexivity.
  - rewrite join_cons by discriminate. rewrite !append_assoc.
    cbn [parse_items].
    rewrite (IH x Hx) by (simpl; lia || exact eq_refl).
    rewrite append_cons, append_nil, next_is_here by reflexivity.
    rewrite IHl; [reflexivity|discriminate|assumption|simpl in *; lia].
Qed.

Lemma parse_props_join (l : list (string * json)) :
  l <> [] -> Forall (fun kv => (size (snd kv) <= n)%nat) l ->
  forall fuel rest, (2 * list_sum (map (fun '(_, v) => size v) l) + 1 <= fuel)%nat ->
  parse_props fuel
    (join (fun '(k, v) => quote k +:+ ":" +:+ stringify v) l +:+ String "}" rest) =
  Some (l, rest).
Proof.
  induction l as [|[k x] l IHl]; [congruence|]. intros _ Hall fuel rest Hf.
  apply Forall_cons in Hall as [Hx Hall]. simpl in Hx.
  destruct fuel as [|f]; [lia|]. simpl in Hf. pose proof (size_pos x) as Hp.
  assert (Hkey : forall tail, parse_key (quote k +:+ ":" +:+ tail) = Some (k, tail)).
  { intros tail. unfold parse_key, quote.
    rewrite append_cons, append_assoc, append_cons, append_nil. simpl skip_ws.
    simpl Ascii.eqb. cbv iota.
    rewrite (parse_string_body_escape k (":" +:+ tail)). reflexivity. }
  destruct l as [|[k' y] l].
  - cbn [join parse_props]. rewrite !append_assoc, Hkey.
    rewrite (IH x Hx) by (simpl; lia || exact eq_refl).
    reflexivity.
  - rewrite join_cons by discriminate. rewrite !append_assoc.
    cbn [parse_props]. rewrite Hkey.
    rewrite (IH x Hx) by (simpl; lia || exact eq_refl).
    rewrite append_cons, append_nil, next_is_here by reflexivity.
    rewrite IHl; [reflexivity|discriminate|assumption|simpl in *; lia].
Qed.

End Bounded.

Lemma parse_value_stringify_bounded (n : nat) :
  forall j, (size j <= n)%nat -> forall fuel rest,
  (2 * size j <= fuel)%nat -> ends_number rest ->
  parse_value fuel (stringify j +:+ rest) = Some (j, rest).
Proof.
  induction n as [|n IHn]; intros j Hs fuel rest Hf Hr.
  { pose proof (size_pos j). lia. }
  pose proof (size_pos j) as Hp.
  destruct fuel as [|f]; [lia|].
  destruct j as [|[]|z|s|l|l]; try reflexivity.
  - (* number *)
    destruct (Number_toString_head z) as (c & r & E & Hc).
    cbn [stringify]. rewrite E, append_cons, (parse_value_number _ _ _ Hc).
    rewrite <- append_cons, <- E. now apply parse_number_toString.
  - (* string *)
    cbn [stringify]. unfold quote.
    rewrite append_cons, append_assoc, append_cons, append_nil.
    now rewrite parse_value_string, parse_string_body_escape.
  - (* array *)
    destruct l as [|x l]; [reflexivity|].
    cbn [stringify]. rewrite !append_assoc, !append_cons, !append_nil.
    rewrite parse_value_array.
    assert (Hst : starts_value (join stringify (x :: l) +:+ String "]" rest)).
    { destruct l; [cbn [join]|rewrite join_cons by discriminate; rewrite append_assoc];
        apply stringify_starts. }
    rewrite (next_is_starts _ _ Hst) by auto.
    rewrite (parse_items_join n IHn); [reflexivity|discriminate| |].
    + apply items_size_bound. simpl in Hs |- *. lia.
    + simpl in Hf, Hs |- *. lia.
  - (* object *)
    destruct l as [|[k x] l]; [reflexivity|].
    cbn [stringify]. rewrite !append_assoc, !append_cons, !append_nil.
    rewrite parse_value_object.
    assert (Hst : starts_value
              (join (fun '(k, v) => quote k +:+ ":" +:+ stringify v) ((k, x) :: l) +:+
               String "}" rest)).
    { destruct l; [cbn [join]|rewrite join_cons by discriminate; rewrite append_assoc];
        unfold quote; rewrite append_cons; eexists _, _; (split; [reflexivity|]);
        repeat split; reflexivity. }
    rewrite (next_is_starts _ _ Hst) by auto.
    rewrite (parse_props_join n IHn); [reflexivity|discriminate| |].
    + apply props_size_bound. simpl in Hs |- *. lia.
    + simpl in Hf, Hs |- *. lia.
Qed.

Lemma join_length_bound {A : Type} (text : A -> string) (weight : A -> nat) (l : list A) :
  Forall (fun x => (weight x <= String.length (text x))%nat) l ->
  (list_sum (map weight l) <= String.length (join text l))%nat.
Proof.
  induction l as [|x l IHl]; intros H; [simpl; lia|].
  apply Forall_cons in H as [Hx H]. specialize (IHl H).
  destruct l as [|y l]; [simpl in *; lia|].
  rewrite join_cons by discriminate. rewrite !length_append.
  change (list_sum (map weight (x :: y :: l)))
    with (weight x + list_sum (map weight (y :: l)))%nat.
  lia.
Qed.

Lemma size_le_length_bounded (n : nat) :
  forall j, (size j <= n)%nat -> (size j <= String.length (stringify j))%nat.
Proof.
  induction n as [|n IHn]; intros j Hs.
  { pose proof (size_pos j). lia. }
  destruct j as [|[]|z|s|l|l]; try (simpl; lia).
  - destruct (Number_toString_head z) as (c & r & E & _).
    cbn [stringify size]. rewrite E. simpl. lia.
  - cbn [stringify size]. rewrite !length_append.
    assert (H : (list_sum (map size l) <= String.length (join stringify l))%nat).
    { apply join_length_bound. simpl in Hs.
      eapply Forall_impl; [apply (items_size_bound l n); lia|].
      intros x Hx. now apply IHn. }
    simpl. lia.
  - cbn [stringify size]. rewrite !length_append.
    assert (H : (list_sum (map (fun '(_, v) => size v) l) <=
                 String.length (join (fun '(k, v) => quote k +:+ ":" +:+ stringify v) l))%nat).
    { apply join_length_bound. simpl in Hs.
      eapply Forall_impl; [apply (props_size_bound l n); lia|].
      intros [k x] Hx. simpl in Hx. rewrite !length_append.
      specialize (IHn x Hx). lia. }
    simpl. lia.
Qed.

(** [parse] undoes [stringify]. *)
Lemma parse_stringify (j : json) : parse (stringify j) = Some j.
Proof.
  unfold parse.
  pose proof (size_le_length_bounded (size j) j (le_n _)) as Hl.
  rewrite <- (append_empty (stringify j)) at 2.
  rewrite (parse_value_stringify_bounded (size j) j (le_n _)); [reflexivity|lia|exact I].
Qed.

End MiniJSONFacts.

Section Properties.
Context {platform : Platform}.

Lemma Buffer_toString_new_Buffer (s : string) : Buffer_toString (new_Buffer s) = s.
Proof. apply string_of_list_byte_of_string. Qed.

Lemma Buffer_concat_tag (x : byte) (b : Buffer) :
  Buffer_concat [[x]; b] (length b + 1) = x :: b.
Proof.
  unfold Buffer_concat. simpl. rewrite app_nil_r, Nat.add_1_r. simpl.
  f_equal. apply firstn_all.
Qed.

Lemma Buffer_equals_spec (a b : Buffer) : Buffer_equals a b = true <-> a = b.
Proof.
  revert b. induction a as [|x a IH]; intros [|y b]; simpl; try (split; congruence).
  rewrite andb_true_iff, IH. split.
  - intros [H ->]. apply Byte.byte_dec_bl in H. now subst.
  - intros [= -> ->]. split; [apply Byte.byte_dec_lb|]; reflexivity.
Qed.

Lemma entry_hint_cons (x : byte) (b : Buffer) :
  entry_hint (EBuf (x :: b)) = String (ascii_of_byte x) EmptyString.
Proof. reflexivity. Qed.

Lemma entry_rest_cons (x : byte) (b : Buffer) : entry_rest (EBuf (x :: b)) = EBuf b.
Proof. reflexivity. Qed.

Lemma count_app (p : event -> bool) (t1 t2 : list event) :
  count p (t1 ++ t2) = (count p t1 + count p t2)%nat.
Proof. unfold count. now rewrite List.filter_app, length_app. Qed.

Lemma count_cons (p : event -> bool) (e : event) (t : list event) :
  count p (e :: t) = ((if p e then 1 else 0) + count p t)%nat.
Proof. unfold count. simpl. now destruct (p e). Qed.

Lemma errcode_cases (err : option Error) (n : Z) :
  errcode err = Some n -> n = 404 \/ n = 403.
Proof.
  destruct err as [e|]; simpl; [|discriminate].
  repeat match goal with |- context [if ?c then _ else _] => destruct c end;
    intros [= <-]; auto.
Qed.

(** *** The codec *)

Lemma encode_opaque (err : option Error) (buffer : payload) :
  err <> None -> errcode err = None -> encode err buffer = Return None.
Proof.
  intros Herr Hcode. unfold encode. rewrite Hcode. now destruct err.
Qed.

Lemma encode_negative (err : option Error) (buffer : payload) (n : Z) :
  errcode err = Some n ->
  encode err buffer = Return (Some (EStr ("E" +:+ Number_toString n))).
Proof. intros H. unfold encode. now rewrite H. Qed.

Lemma encode_text (s : string) :
  string_truthy s = true ->
  encode None (PText s) = Return (Some (EBuf ("S"%byte :: new_Buffer s))).
Proof.
  intros H. unfold encode. simpl. rewrite H.
  change (new_Buffer "S") with ["S"%byte]. now rewrite Buffer_concat_tag.
Qed.

Lemma encode_binary (b : Buffer) :
  encode None (PBinary b) = Return (Some (EBuf ("B"%byte :: b))).
Proof.
  unfold encode. simpl.
  change (new_Buffer "B") with ["B"%byte]. now rewrite Buffer_concat_tag.
Qed.

Lemma encode_structured (buffer : payload) :
  (exists items, buffer = PArray items) \/ (exists props, buffer = PObject props) ->
  encode None buffer =
  Return (Some (EBuf ("O"%byte :: new_Buffer (JSON_stringify (json_of_payload buffer))))).
Proof.
  intros [[l ->]|[l ->]]; unfold encode; simpl;
    change (new_Buffer "O") with ["O"%byte]; now rewrite Buffer_concat_tag.
Qed.

(** [encode] never answers [null] for an outcome that passes the test
    [err && !errcode(err)] of [readthrough]. *)
Lemma encode_not_null (err : option Error) (buffer : payload) :
  (err = None \/ errcode err <> None) -> encode err buffer <> Return None.
Proof.
  intros H. unfold encode. destruct (errcode err) eqn:E; [discriminate|].
  destruct H as [->|H]; [|congruence].
  destruct buffer as [|s| | |]; simpl; try discriminate.
  now destruct (string_truthy s).
Qed.

Lemma encode_total (err : option Error) (buffer : payload) :
  encodable err buffer \/ (err <> None /\ errcode err = None) ->
  exists v, encode err buffer = Return v.
Proof.
  intros [H|[H1 H2]].
  - unfold encodable in H. destruct err as [e|].
    + destruct (errcode (Some e)) eqn:E; [|congruence].
      eexists. eapply encode_negative. exact E.
    + destruct buffer as [|s|b|l|l]; simpl in H; try discriminate.
      * eexists. now apply encode_text.
      * eexists. apply encode_binary.
      * eexists. apply encode_structured. eauto.
      * eexists. apply encode_structured. eauto.
  - eexists. now apply encode_opaque.
Qed.

Lemma decode_text (s : string) :
  decode (EBuf ("S"%byte :: new_Buffer s)) = Return (DValue (JSstring s)).
Proof.
  unfold decode. rewrite entry_hint_cons, entry_rest_cons. simpl.
  now rewrite Buffer_toString_new_Buffer.
Qed.

Lemma decode_binary (b : Buffer) :
  decode (EBuf ("B"%byte :: b)) = Return (DValue (JSbuffer b)).
Proof. unfold decode. now rewrite entry_hint_cons, entry_rest_cons. Qed.

Lemma decode_structured (b : Buffer) :
  decode (EBuf ("O"%byte :: b)) =
  match JSON_parse (Buffer_toString b) with
  | Some j => Return (DValue (JSjson j))
  | None => Throw SyntaxError
  end.
Proof. unfold decode. now rewrite entry_hint_cons, entry_rest_cons. Qed.

Lemma decode_negative (n : Z) :
  n = 404 \/ n = 403 ->
  decode (EStr ("E" +:+ Number_toString n)) =
    Return (DError (mkError EmptyString (PVnum n) (PVnum n) true None)) /\
  decode (stored (EStr ("E" +:+ Number_toString n))) =
    Return (DError (mkError EmptyString (PVnum n) (PVnum n) true None)).
Proof. intros [->| ->]; split; reflexivity. Qed.

Lemma decode_parse_failure (encoded : entry) :
  entry_hint encoded = "O" ->
  JSON_parse (entry_toString (entry_rest encoded)) = None ->
  decode encoded = Throw SyntaxError.
Proof. intros Hh Hp. unfold decode. rewrite Hh, Hp. reflexivity. Qed.

Lemma decode_invalid (encoded : entry) :
  ~ In (entry_hint encoded) ["O"; "S"; "B"] ->
  ~ (entry_hint encoded = "E" /\
     (entry_toString (entry_rest encoded) = "404" \/
      entry_toString (entry_rest encoded) = "403")) ->
  decode encoded = Return (DError (new_Error "Invalid cache value")).
Proof.
  intros Ht He. unfold decode.
  destruct (String.eqb (entry_hint encoded) "E" && _) eqn:E1.
  - exfalso. apply He. apply andb_true_iff in E1 as [E1 E2].
    apply String.eqb_eq in E1. apply orb_true_iff in E2.
    split; [assumption|]. destruct E2 as [E2|E2]; apply String.eqb_eq in E2; auto.
  - destruct (existsb _ _) eqn:E2; [|reflexivity].
    exfalso. apply Ht. apply existsb_exists in E2 as (x & Hx & Hx').
    apply String.eqb_eq in Hx'. now subst.
Qed.

Lemma decode_throws_only_on_parse_failure (encoded : entry) (e : exn) :
  decode encoded = Throw e ->
  e = SyntaxError /\ entry_hint encoded = "O" /\
  JSON_parse (entry_toString (entry_rest encoded)) = None.
Proof.
  unfold decode.
  destruct (String.eqb (entry_hint encoded) "E" && _); [discriminate|].
  destruct (negb _); [discriminate|].
  destruct (String.eqb (entry_hint encoded) "O") eqn:E.
  - apply String.eqb_eq in E.
    destruct (JSON_parse _); [discriminate|]. intros [= <-]. auto.
  - destruct (String.eqb _ "S"); discriminate.
Qed.

Lemma jsdata_truthy_payload_data (p : payload) :
  jsdata_truthy (payload_data p) = payload_truthy p.
Proof. now destruct p. Qed.

Lemma encode_Some_encodable (err : option Error) (buffer : payload) (e : entry) :
  encode err buffer = Return (Some e) -> encodable err buffer.
Proof.
  unfold encode, encodable. destruct (errcode err) eqn:E.
  - destruct err; [congruence|discriminate].
  - destruct err; [discriminate|].
    destruct buffer as [|s| | |]; simpl; try discriminate; auto.
    now destruct (string_truthy s).
Qed.

Lemma decoded_kind_truthy (d : decoded) (buffer : payload) (err : option Error) :
  encodable err buffer ->
  decoded_kind d = outcome_kind err (payload_data buffer) ->
  decoded_truthy d = true.
Proof.
  intros He Hk. destruct d as [e|v]; [reflexivity|].
  unfold decoded_kind, outcome_kind in Hk. destruct err as [e|].
  - destruct (errcode (Some e)) as [z|]; [destruct (z =? 404)|]; discriminate.
  - injection Hk as ->. simpl. now rewrite jsdata_truthy_payload_data.
Qed.

Lemma deliver_decoded_kind (d : decoded) :
  exists err data,
    deliver_decoded d = Callback err data None /\ outcome_kind err data = decoded_kind d.
Proof. destruct d as [e|v]; eexists _, _; split; reflexivity. Qed.

(** C10 (the defect). [encode] on a success without payload: a [TypeError]
    leaves [encode] when the payload is absent ([undefined] / [null]) and
    when it is the empty string; only the empty [Buffer] is encoded as the
    tag [B] followed by no bytes. *)
Theorem encode_absent_payload_throws :
  encode None PAbsent = Throw TypeError /\
  encode None (PText EmptyString) = Throw TypeError /\
  encode None (PBinary []) = Return (Some (EBuf ["B"%byte])).
Proof. repeat split. Qed.

Lemma round_trip_encodable (err : option Error) (buffer : payload) :
  encodable err buffer -> JSON_faithful buffer ->
  round_trip err buffer /\ round_trip_stored err buffer.
Proof.
  intros Henc Hjson. unfold round_trip, round_trip_stored.
  destruct err as [e|].
  - unfold encodable in Henc. destruct (errcode (Some e)) as [n|] eqn:E; [|congruence].
    pose proof (errcode_cases _ _ E) as Hn.
    destruct (decode_negative n Hn) as [D1 D2].
    rewrite (encode_negative _ buffer _ E).
    split; eexists _, _; (split; [reflexivity|]); (split; [eassumption|]);
      (transitivity (if n =? 404 then NotFound else Forbidden);
        [destruct Hn as [-> | ->]; reflexivity
        |unfold outcome_kind; rewrite E; reflexivity]).
  - destruct buffer as [|s|b|l|l]; simpl in Henc; try discriminate.
    + rewrite (encode_text s Henc).
      split; eexists _, _; (split; [reflexivity|]); (split; [apply decode_text|]); reflexivity.
    + rewrite (encode_binary b).
      split; eexists _, _; (split; [reflexivity|]); (split; [apply decode_binary|]); reflexivity.
    + rewrite encode_structured by eauto.
      split; eexists _, _; (split; [reflexivity|]);
        (split; [unfold stored; simpl entry_bytes; rewrite decode_structured, Buffer_toString_new_Buffer;
                 simpl in Hjson; simpl json_of_payload; rewrite Hjson; reflexivity|]); reflexivity.
    + rewrite encode_structured by eauto.
      split; eexists _, _; (split; [reflexivity|]);
        (split; [unfold stored; simpl entry_bytes; rewrite decode_structured, Buffer_toString_new_Buffer;
                 simpl in Hjson; simpl json_of_payload; rewrite Hjson; reflexivity|]); reflexivity.
Qed.

(** C2 (amended). Round trip of the codec: for a failure that [errcode]
    recognises (404 or 403) and for a success whose payload is structured,
    a non-empty string or a Buffer, [encode] returns an entry and [decode]
    of that entry, taken as returned or as read back from the store, is the
    same outcome: the same data for a success, the same status for a
    failure (rebuilt as a fresh error marked [redis]).  The structured case
    rests on [JSON.parse] undoing [JSON.stringify] on the payload. *)
Theorem codec_round_trip (err : option Error) (buffer : payload) :
  encodable err buffer -> JSON_faithful buffer ->
  round_trip err buffer /\ round_trip_stored err buffer.
Proof. exact (round_trip_encodable err buffer). Qed.

(** *** The strategies *)

Section Strategies.
Variable namespace : string.
Variable expires_opt : expires_option.

(** **** readthrough *)

Lemma readthrough_denied client url upstream r :
  below_high_water client = false ->
  readthrough namespace expires_opt client url upstream r =
  [Emit HighWaterMark; UpstreamGet ThisSource url; deliver_outcome (upstream ThisSource url)].
Proof. intros H. unfold readthrough. now rewrite H. Qed.

Lemma readthrough_store_error client url upstream err :
  below_high_water client = true ->
  readthrough namespace expires_opt client url upstream (GetError err) =
  [StoreGet (cache_key namespace url);
   Emit (StoreFailure (set_key (cache_key namespace url) err));
   UpstreamGet ThisUnbound url;
   deliver_outcome (upstream ThisUnbound url)].
Proof. intros H. unfold readthrough. now rewrite H. Qed.

Lemma readthrough_miss client url upstream :
  below_high_water client = true ->
  readthrough namespace expires_opt client url upstream (GetReply None) =
  StoreGet (cache_key namespace url) :: UpstreamGet ThisSource url ::
  readthrough_upstream_callback namespace expires_opt url (upstream ThisSource url).
Proof. intros H. unfold readthrough. now rewrite H. Qed.

Lemma readthrough_hit client url upstream b d :
  below_high_water client = true ->
  decode (EBuf b) = Return d -> decoded_truthy d = true ->
  readthrough namespace expires_opt client url upstream (GetReply (Some b)) =
  [StoreGet (cache_key namespace url); deliver_decoded d].
Proof.
  intros H Hd Ht. unfold readthrough, readthrough_store_callback. rewrite H, Hd.
  destruct d as [e|v]; simpl in *; [reflexivity|]. now rewrite Ht.
Qed.

Lemma readthrough_decode_throws client url upstream b e :
  below_high_water client = true ->
  decode (EBuf b) = Throw e ->
  readthrough namespace expires_opt client url upstream (GetReply (Some b)) =
  StoreGet (cache_key namespace url) ::
  Emit (DecodeFailure (cache_key namespace url) e) ::
  UpstreamGet ThisSource url ::
  readthrough_upstream_callback namespace expires_opt url (upstream ThisSource url).
Proof.
  intros H Hd. unfold readthrough, readthrough_store_callback. now rewrite H, Hd.
Qed.

Lemma readthrough_upstream_callback_delivers url o :
  exists data hdrs,
    delivered (readthrough_upstream_callback namespace expires_opt url o) =
      [Callback (u_err o) data hdrs] /\
    ((u_err o = None \/ errcode (u_err o) <> None) ->
       data = payload_data (u_buffer o) /\ hdrs = u_headers o).
Proof.
  unfold readthrough_upstream_callback.
  destruct (u_err o) as [e|] eqn:Ee.
  - destruct (errcode (Some e)) eqn:Ec.
    + eexists _, _. split; [|auto].
      simpl. now destruct (encode _ _).
    + eexists _, _. split; [reflexivity|]. intros [?|?]; congruence.
  - simpl. eexists _, _. split; [|auto]. now destruct (encode _ _).
Qed.

Lemma readthrough_upstream_callback_writes url o :
  List.filter is_store_write (readthrough_upstream_callback namespace expires_opt url o) =
  match u_err o, errcode (u_err o), encode (u_err o) (u_buffer o) with
  | Some _, None, _ => []
  | _, _, Return v => [StoreSetex (cache_key namespace url) (resolve_expires expires_opt url) v]
  | _, _, Throw _ => []
  end.
Proof.
  unfold readthrough_upstream_callback.
  destruct (u_err o) as [e|]; [destruct (errcode (Some e))|]; simpl;
    try reflexivity; now destruct (encode _ _).
Qed.

(** [readthrough] never passes [null] to [setex]. *)
Lemma readthrough_writes_an_entry client url upstream r key ttl v :
  In (StoreSetex key ttl v) (readthrough namespace expires_opt client url upstream r) ->
  v <> None.
Proof.
  assert (Hcb : forall o, In (StoreSetex key ttl v)
                 (readthrough_upstream_callback namespace expires_opt url o) -> v <> None).
  { intros o. unfold readthrough_upstream_callback.
    destruct (u_err o) as [e|] eqn:Ee.
    - destruct (errcode (Some e)) eqn:Ec.
      + simpl. intros [H|H]; [discriminate|].
        destruct (encode (Some e) (u_buffer o)) eqn:En; simpl in H.
        * destruct H as [[= <- <- <-]|[]]. intros ->.
          apply (encode_not_null (Some e) (u_buffer o)); [right; congruence|assumption].
        * destruct H as [H|[]]. discriminate.
      + simpl. intros [H|[]]. discriminate.
    - simpl. intros [H|H]; [discriminate|].
      destruct (encode None (u_buffer o)) eqn:En; simpl in H.
      + destruct H as [[= <- <- <-]|[]]. intros ->.
        apply (encode_not_null None (u_buffer o)); [now left|assumption].
      + destruct H as [H|[]]. discriminate. }
  unfold readthrough. destruct (below_high_water client).
  - intros [H|H]; [discriminate|]. revert H.
    unfold readthrough_store_callback. destruct r as [err|[b|]].
    + simpl. intuition discriminate.
    + destruct (decode (EBuf b)) as [[e|d]|x].
      * simpl. intuition discriminate.
      * destruct (jsdata_truthy d); simpl.
        -- intuition discriminate.
        -- intros [H|H]; [discriminate|]. eauto.
      * simpl. intros [H|[H|H]]; try discriminate. eauto.
    + simpl. intros [H|H]; [discriminate|]. eauto.
  - simpl. intuition discriminate.
Qed.

(** [readthrough] when the lookup itself fails, line by line: the error
    is tagged with the cache key and emitted, [get] is called as a bare
    [get(url, callback)], without the source as receiver, with the caller's
    callback, so the caller is given the outcome of that call as it is, and
    no write follows; on a plain miss the outcome that [encode] accepts is
    written under the key with the resolved expiry. *)
Theorem readthrough_store_read_error client url upstream err :
  below_high_water client = true ->
  let key := cache_key namespace url in
  let t := readthrough namespace expires_opt client url upstream (GetError err) in
  t = [StoreGet key; Emit (StoreFailure (set_key key err));
       UpstreamGet ThisUnbound url; deliver_outcome (upstream ThisUnbound url)] /\
  err_key (set_key key err) = Some key /\
  count is_upstream_call t = 1%nat /\
  delivered t = [deliver_outcome (upstream ThisUnbound url)] /\
  count is_store_write t = 0%nat /\
  (forall v, encode (u_err (upstream ThisSource url)) (u_buffer (upstream ThisSource url)) = Return (Some v) ->
     List.filter is_store_write
       (readthrough namespace expires_opt client url upstream (GetReply None)) =
     [StoreSetex key (resolve_expires expires_opt url) (Some v)]).
Proof.
  intros H key t. subst t. rewrite (readthrough_store_error _ _ _ _ H).
  repeat split.
  intros v Hv. rewrite (readthrough_miss _ _ _ H). simpl.
  rewrite readthrough_upstream_callback_writes, Hv.
  destruct (u_err (upstream ThisSource url)) as [e|] eqn:Ee; [|reflexivity].
  destruct (errcode (Some e)) eqn:Ec; [reflexivity|].
  rewrite encode_opaque in Hv by congruence. discriminate.
Qed.

(** **** race *)

Lemma delivered_app (t1 t2 : list event) : delivered (t1 ++ t2) = delivered t1 ++ delivered t2.
Proof. apply List.filter_app. Qed.

Lemma finalize_no_callback url ca cu : delivered (finalize namespace expires_opt url ca cu) = [].
Proof. unfold finalize. now destruct (optbool_truthy _). Qed.

Lemma reconcile_no_callback url v : delivered (reconcile namespace expires_opt url v) = [].
Proof.
  unfold reconcile. destruct (cached v), (current v); try reflexivity.
  destruct (_ && _); [apply finalize_no_callback|reflexivity].
Qed.

Lemma reconcile_without_current url v :
  current v = None -> reconcile namespace expires_opt url v = [].
Proof. intros H. unfold reconcile. rewrite H. now destruct (cached v). Qed.

(** Once [sent] is set, neither callback calls the caller again. *)
Lemma race_upstream_callback_sent url o v :
  sent v = true ->
  sent (fst (race_upstream_callback namespace expires_opt url o v)) = true /\
  delivered (snd (race_upstream_callback namespace expires_opt url o v)) = [].
Proof.
  intros H. unfold race_upstream_callback.
  destruct (encode _ _); simpl; rewrite ?H; simpl; auto using reconcile_no_callback.
Qed.

Lemma race_store_callback_sent url r v :
  sent v = true ->
  sent (fst (race_store_callback namespace expires_opt url r v)) = true /\
  delivered (snd (race_store_callback namespace expires_opt url r v)) = [].
Proof.
  intros H. unfold race_store_callback.
  destruct r as [err|[b|]]; simpl; rewrite ?H; simpl; auto using reconcile_no_callback.
Qed.

Lemma race_callbacks_upstream url o rest v :
  race_callbacks namespace expires_opt url (UpstreamDone o :: rest) v =
  snd (race_upstream_callback namespace expires_opt url o v) ++
  race_callbacks namespace expires_opt url rest
    (fst (race_upstream_callback namespace expires_opt url o v)).
Proof. simpl. now destruct (race_upstream_callback _ _ url o v). Qed.

Lemma race_callbacks_store url r rest v :
  race_callbacks namespace expires_opt url (StoreDone r :: rest) v =
  snd (race_store_callback namespace expires_opt url r v) ++
  race_callbacks namespace expires_opt url rest
    (fst (race_store_callback namespace expires_opt url r v)).
Proof. simpl. now destruct (race_store_callback _ _ url r v). Qed.

Lemma race_callbacks_sent url arrivals v :
  sent v = true -> delivered (race_callbacks namespace expires_opt url arrivals v) = [].
Proof.
  revert v. induction arrivals as [|[o|r] rest IH]; intros v H; [reflexivity| |].
  - destruct (race_upstream_callback_sent url o v H) as [H1 H2].
    now rewrite race_callbacks_upstream, delivered_app, H2, IH.
  - destruct (race_store_callback_sent url r v H) as [H1 H2].
    now rewrite race_callbacks_store, delivered_app, H2, IH.
Qed.

(** The upstream callback delivers whenever the caller has no answer yet
    and [encode] returns. *)
Lemma race_upstream_callback_delivers url o v cur :
  sent v = false ->
  encode (u_err o) (u_buffer o) = Return cur ->
  sent (fst (race_upstream_callback namespace expires_opt url o v)) = true /\
  delivered (snd (race_upstream_callback namespace expires_opt url o v)) = [deliver_outcome o].
Proof.
  intros H E. unfold race_upstream_callback. rewrite E. simpl. rewrite H. simpl.
  split; [reflexivity|]. now rewrite delivered_app, reconcile_no_callback.
Qed.

(** The store callback delivers a decoded value that is truthy. *)
Lemma race_store_callback_delivers url b d v :
  sent v = false ->
  decode (EBuf b) = Return d -> decoded_truthy d = true ->
  sent (fst (race_store_callback namespace expires_opt url (GetReply (Some b)) v)) = true /\
  delivered (snd (race_store_callback namespace expires_opt url (GetReply (Some b)) v)) =
    [deliver_decoded d].
Proof.
  intros H D T. unfold race_store_callback. simpl. rewrite H, D.
  destruct d as [e|x]; simpl in *; [|rewrite T]; simpl;
    (split; [reflexivity|]); now rewrite delivered_app, reconcile_no_callback.
Qed.

(** It delivers at most once, and sets [sent] exactly when it does. *)
Lemma race_store_callback_delivery url r v :
  sent v = false ->
  let res := race_store_callback namespace expires_opt url r v in
  (sent (fst res) = true /\ length (delivered (snd res)) = 1%nat) \/
  (sent (fst res) = false /\ delivered (snd res) = []).
Proof.
  intros H. unfold race_store_callback.
  destruct r as [err|[b|]]; simpl; rewrite ?H.
  - now right.
  - destruct (decode (EBuf b)) as [[e|d]|e]; simpl.
    + left. now rewrite delivered_app, reconcile_no_callback.
    + destruct (jsdata_truthy d); simpl.
      * left. now rewrite delivered_app, reconcile_no_callback.
      * right. now rewrite ?H, reconcile_no_callback.
    + right. now rewrite ?H, delivered_app, reconcile_no_callback.
  - right. now rewrite ?H, reconcile_no_callback.
Qed.

Lemma delivered_race_issue client url :
  delivered (race_issue namespace client url) = [].
Proof. unfold race_issue. simpl. now destruct (below_high_water client). Qed.

Lemma delivered_race client url arrivals :
  delivered (race namespace expires_opt client url arrivals) =
  delivered (race_callbacks namespace expires_opt url arrivals (race_init)).
Proof. unfold race. now rewrite delivered_app, delivered_race_issue. Qed.

Lemma race_store_first client url b d rest :
  decode (EBuf b) = Return d -> decoded_truthy d = true ->
  delivered (race namespace expires_opt client url
               (StoreDone (GetReply (Some b)) :: rest)) = [deliver_decoded d].
Proof.
  intros D T. rewrite delivered_race.
  destruct (race_store_callback_delivers url b d race_init eq_refl D T) as [H1 H2].
  now rewrite race_callbacks_store, delivered_app, H2, race_callbacks_sent.
Qed.

Lemma race_upstream_first client url o rest :
  (exists cur, encode (u_err o) (u_buffer o) = Return cur) ->
  delivered (race namespace expires_opt client url (UpstreamDone o :: rest)) =
    [deliver_outcome o].
Proof.
  intros [cur E]. rewrite delivered_race.
  destruct (race_upstream_callback_delivers url o race_init cur eq_refl E) as [H1 H2].
  now rewrite race_callbacks_upstream, delivered_app, H2, race_callbacks_sent.
Qed.

(** C1 (amended). Delivery rule of [race]. If the lookup answers, before
    the upstream outcome arrives, an entry that [decode] turns into a
    truthy value (an error, a Buffer, a non-empty string, a truthy JSON
    value), the caller is given that value and nothing else, whatever
    arrives later.  If the upstream outcome arrives first and [encode]
    returns on it, the caller is given the upstream outcome and nothing
    else, whatever the lookup answers later. *)
Theorem race_delivery_rule client url :
  (forall b d rest,
     below_high_water client = true ->
     decode (EBuf b) = Return d -> decoded_truthy d = true ->
     delivered (race namespace expires_opt client url
                  (StoreDone (GetReply (Some b)) :: rest)) = [deliver_decoded d]) /\
  (forall o rest,
     (exists cur, encode (u_err o) (u_buffer o) = Return cur) ->
     delivered (race namespace expires_opt client url (UpstreamDone o :: rest)) =
       [deliver_outcome o]).
Proof.
  split.
  - intros b d rest _. apply race_store_first.
  - intros o rest. apply race_upstream_first.
Qed.

(** Exactly one delivery, whatever the order of the completions, when the
    upstream call completes and [encode] returns on its outcome. *)
Lemma race_callbacks_deliver_once url arrivals v :
  sent v = false ->
  (forall o, In (UpstreamDone o) arrivals -> exists cur, encode (u_err o) (u_buffer o) = Return cur) ->
  (1 <= upstream_arrivals arrivals)%nat ->
  length (delivered (race_callbacks namespace expires_opt url arrivals v)) = 1%nat.
Proof.
  revert v. induction arrivals as [|[o|r] rest IH]; intros v H Henc Hup.
  - unfold upstream_arrivals in Hup. simpl in Hup. lia.
  - destruct (Henc o (or_introl eq_refl)) as [cur E].
    destruct (race_upstream_callback_delivers url o v cur H E) as [H1 H2].
    now rewrite race_callbacks_upstream, delivered_app, H2, race_callbacks_sent.
  - rewrite race_callbacks_store, delivered_app, length_app.
    destruct (race_store_callback_delivery url r v H) as [[H1 H2]|[H1 H2]].
    + rewrite H2, race_callbacks_sent by assumption. reflexivity.
    + rewrite H2. simpl. apply IH; auto. intros o Ho. apply Henc. now right.
Qed.

(** X15. [race] answers exactly once. In a run in which the upstream call
    completes and [encode] returns on every upstream outcome, the caller's
    callback is called exactly once, whatever the store answers and in
    whatever order the completions arrive. *)
Lemma race_delivers_once client url arrivals :
  (forall o, In (UpstreamDone o) arrivals -> exists cur, encode (u_err o) (u_buffer o) = Return cur) ->
  (1 <= upstream_arrivals arrivals)%nat ->
  count is_callback (race namespace expires_opt client url arrivals) = 1%nat.
Proof.
  intros. unfold count. fold (delivered (race namespace expires_opt client url arrivals)).
  rewrite delivered_race. now apply race_callbacks_deliver_once.
Qed.

(** C5 (amended). [readthrough] on an entry that cannot be decoded.  When
    [decode] throws, which is the case of an [O] entry whose text
    [JSON.parse] rejects, the failure is emitted with the key, the upstream
    is called as on a miss and the caller is given what the upstream
    callback passes on.  When the tag is none of [O], [S], [B] and the
    entry is not [E404] or [E403], [decode] returns an error value, and the
    caller is given that error; the upstream is not called and nothing is
    emitted. *)
Theorem readthrough_decode_failure client url upstream b :
  below_high_water client = true ->
  let key := cache_key namespace url in
  let hint := entry_hint (EBuf b) in
  let rest := entry_toString (entry_rest (EBuf b)) in
  let t := readthrough namespace expires_opt client url upstream (GetReply (Some b)) in
  (hint = "O" -> JSON_parse rest = None ->
     t = StoreGet key :: Emit (DecodeFailure key SyntaxError) ::
         UpstreamGet ThisSource url ::
         readthrough_upstream_callback namespace expires_opt url (upstream ThisSource url) /\
     handled_as_miss namespace expires_opt url (upstream ThisSource url) t) /\
  (~ In hint ["O"; "S"; "B"] -> ~ (hint = "E" /\ (rest = "404" \/ rest = "403")) ->
     t = [StoreGet key; Callback (Some (new_Error "Invalid cache value")) JSundefined None]).
Proof.
  intros H key hint rest t. subst t. split.
  - intros Hh Hp.
    rewrite (readthrough_decode_throws _ _ _ _ SyntaxError H
               (decode_parse_failure _ Hh Hp)).
    split; [reflexivity|]. unfold handled_as_miss. repeat split.
    + eexists. right. left. reflexivity.
    + right. right. now left.
  - intros Ht He.
    now rewrite (readthrough_hit _ _ _ _ _ H (decode_invalid _ Ht He) eq_refl).
Qed.

(** C9 (amended). What a hit delivers. For the entry [encode] returns on
    an upstream outcome, both strategies call the caller with an outcome of
    the same kind (the same data for a success, the same status for a
    failure) and without headers; [readthrough] does not call the
    upstream. *)
Theorem cache_hit_outcome client url upstream o e :
  below_high_water client = true ->
  encode (u_err o) (u_buffer o) = Return (Some e) ->
  JSON_faithful (u_buffer o) ->
  exists err data,
    readthrough namespace expires_opt client url upstream (GetReply (Some (entry_bytes e))) =
      [StoreGet (cache_key namespace url); Callback err data None] /\
    (forall rest,
       delivered (race namespace expires_opt client url
                    (StoreDone (GetReply (Some (entry_bytes e))) :: rest)) =
         [Callback err data None]) /\
    outcome_kind err data = outcome_kind (u_err o) (payload_data (u_buffer o)).
Proof.
  intros H E J.
  pose proof (encode_Some_encodable _ _ _ E) as He.
  destruct (round_trip_encodable _ _ He J) as [_ (e' & d & E' & D & K)].
  rewrite E in E'. injection E' as <-. unfold stored in D.
  pose proof (decoded_kind_truthy _ _ _ He K) as T.
  destruct (deliver_decoded_kind d) as (err & data & Hd & Hk).
  exists err, data. split; [|split].
  - now rewrite (readthrough_hit _ _ _ _ _ H D T), Hd.
  - intros rest. rewrite <- Hd.
    now apply race_store_first.
  - now rewrite Hk.
Qed.

(** In [race] no write happens as long as [current] is [null]. *)
Lemma race_callbacks_opaque url arrivals v :
  current v = None ->
  (forall o, In (UpstreamDone o) arrivals -> opaque_failure o) ->
  count is_store_write (race_callbacks namespace expires_opt url arrivals v) = 0%nat.
Proof.
  revert v. induction arrivals as [|[o|r] rest IH]; intros v Hc Hop; [reflexivity| |].
  - rewrite race_callbacks_upstream, count_app.
    destruct (Hop o (or_introl eq_refl)) as [H1 H2].
    unfold race_upstream_callback. rewrite (encode_opaque _ _ H1 H2). simpl.
    rewrite (reconcile_without_current _ (mkVars (sent v) (cached v) None) eq_refl).
    destruct (sent v); simpl; apply IH; auto; intros; apply Hop; now right.
  - rewrite race_callbacks_store, count_app.
    assert (Hrest : forall o, In (UpstreamDone o) rest -> opaque_failure o)
      by (intros; apply Hop; now right).
    unfold race_store_callback. destruct r as [err|[b|]]; simpl.
    + now apply IH.
    + rewrite (reconcile_without_current _ (mkVars _ _ (current v)) Hc).
      destruct (sent v); simpl; [now apply IH|].
      destruct (decode (EBuf b)) as [[e|d]|e]; simpl; [now apply IH| |now apply IH].
      destruct (jsdata_truthy d); simpl; now apply IH.
    + rewrite (reconcile_without_current _ (mkVars _ _ (current v)) Hc).
      now apply IH.
Qed.

(** C7. A failure that [errcode] does not recognise is not cached:
    [encode] answers [null] on it, and no run of [readthrough] or of
    [race] whose upstream outcomes are such failures contains a write. *)
Theorem opaque_failures_are_not_cached client url :
  (forall o, opaque_failure o -> encode (u_err o) (u_buffer o) = Return None) /\
  (forall upstream r,
     (forall this, opaque_failure (upstream this url)) ->
     count is_store_write (readthrough namespace expires_opt client url upstream r) = 0%nat) /\
  (forall arrivals,
     (forall o, In (UpstreamDone o) arrivals -> opaque_failure o) ->
     count is_store_write (race namespace expires_opt client url arrivals) = 0%nat).
Proof.
  split; [|split].
  - intros o [H1 H2]. now apply encode_opaque.
  - intros upstream r Hop.
    assert (Hcb : forall this, count is_store_write
              (readthrough_upstream_callback namespace expires_opt url (upstream this url)) = 0%nat).
    { intros this. destruct (Hop this) as [H1 H2].
      unfold count. rewrite readthrough_upstream_callback_writes, H2.
      now destruct (u_err (upstream this url)). }
    unfold readthrough. destruct (below_high_water client); [|reflexivity].
    rewrite count_cons. simpl.
    unfold readthrough_store_callback. destruct r as [err|[b|]]; [reflexivity| |].
    + destruct (decode (EBuf b)) as [[e|d]|e]; [reflexivity| |].
      * destruct (jsdata_truthy d); [reflexivity|]. simpl. apply Hcb.
      * simpl. apply Hcb.
    + simpl. apply Hcb.
  - intros arrivals Hop. unfold race. rewrite count_app.
    rewrite race_callbacks_opaque by auto.
    unfold race_issue. now destruct (below_high_water client).
Qed.

(** X17. The guard: at or above the high-water mark neither strategy
    touches the store and both emit the diagnostic; [readthrough] hands the
    caller's callback to the upstream, [race] delivers the upstream outcome
    when [encode] returns on it. *)
Lemma backpressure_guard client url :
  below_high_water client = false ->
  (forall upstream r,
     let t := readthrough namespace expires_opt client url upstream r in
     t = [Emit HighWaterMark; UpstreamGet ThisSource url;
          deliver_outcome (upstream ThisSource url)]) /\
  (forall o,
     let t := race namespace expires_opt client url [UpstreamDone o] in
     count is_store_access t = 0%nat /\
     In (Emit HighWaterMark) t /\
     ((exists cur, encode (u_err o) (u_buffer o) = Return cur) ->
        delivered t = [deliver_outcome o])).
Proof.
  intros H. split.
  - intros upstream r. now apply readthrough_denied.
  - intros o t. subst t. split; [|split].
    + unfold race, race_issue. rewrite H. simpl.
      unfold race_upstream_callback. destruct (encode _ _); reflexivity.
    + unfold race, race_issue. rewrite H. right. now left.
    + intros Henc. now apply race_upstream_first.
Qed.

Lemma store_after_writes (s : gmap string (Buffer * expiry)) (t : list event) :
  store_after s t = store_after s (List.filter is_store_write t).
Proof.
  revert s. induction t as [|e t IH]; intros s; [reflexivity|].
  destruct e; simpl; apply IH.
Qed.

Lemma store_read_after_write (s : gmap string (Buffer * expiry)) key ttl v :
  store_read (store_after s [StoreSetex key ttl (Some v)]) key = Some (entry_bytes v).
Proof. unfold store_read, store_after. simpl. now rewrite lookup_insert_eq. Qed.

Lemma finalize_buffers url b cur :
  finalize namespace expires_opt url (EBuf b) (EBuf cur) =
  if Buffer_equals b cur then []
  else [StoreSetex (cache_key namespace url) (resolve_expires expires_opt url) (Some (EBuf cur))].
Proof. reflexivity. Qed.

(** Without two Buffers to compare, [finalize] always writes. *)
Lemma finalize_string url ca s :
  finalize namespace expires_opt url ca (EStr s) =
  [StoreSetex (cache_key namespace url) (resolve_expires expires_opt url) (Some (EStr s))].
Proof. now destruct ca. Qed.

(** The writes of a [race] invocation in which the lookup answers [b] and
    the upstream outcome is encoded as [cur], for both orders. *)
Lemma race_writes_upstream_first client url b o cur :
  encode (u_err o) (u_buffer o) = Return (Some cur) -> entry_truthy cur = true ->
  List.filter is_store_write
    (race namespace expires_opt client url [UpstreamDone o; StoreDone (GetReply (Some b))]) =
  finalize namespace expires_opt url (EBuf b) cur.
Proof.
  intros E T. unfold race. rewrite List.filter_app.
  replace (List.filter is_store_write (race_issue namespace client url)) with (@nil event)
    by (unfold race_issue; now destruct (below_high_water client)).
  rewrite race_callbacks_upstream, race_callbacks_store.
  unfold race_upstream_callback. rewrite E. simpl.
  unfold reconcile. simpl. rewrite T.
  unfold finalize. now destruct (optbool_truthy _).
Qed.

Lemma race_writes_store_first client url b o cur :
  encode (u_err o) (u_buffer o) = Return (Some cur) -> entry_truthy cur = true ->
  List.filter is_store_write
    (race namespace expires_opt client url [StoreDone (GetReply (Some b)); UpstreamDone o]) =
  match decode (EBuf b) with
  | Throw _ => finalize namespace expires_opt url (EStr "500") cur
  | Return _ => finalize namespace expires_opt url (EBuf b) cur
  end.
Proof.
  intros E T. unfold race. rewrite List.filter_app.
  replace (List.filter is_store_write (race_issue namespace client url)) with (@nil event)
    by (unfold race_issue; now destruct (below_high_water client)).
  rewrite race_callbacks_store, race_callbacks_upstream.
  unfold race_store_callback. simpl.
  destruct (decode (EBuf b)) as [[e|d]|e]; simpl.
  - unfold race_upstream_callback. rewrite E. simpl. unfold reconcile. simpl. rewrite T.
    unfold finalize. now destruct (optbool_truthy _).
  - destruct (jsdata_truthy d); simpl;
      unfold race_upstream_callback; rewrite E; simpl; unfold reconcile; simpl; rewrite T;
      unfold finalize; now destruct (optbool_truthy _).
  - unfold race_upstream_callback. rewrite E. simpl. unfold reconcile. simpl. rewrite T.
    unfold finalize. now destruct (optbool_truthy _).
Qed.

(** X16. Reconciliation when the upstream encoding is a Buffer (a
    success), in either order of the two completions: equal bytes, no
    write; different bytes, one write of the upstream encoding, which a
    later read of the key returns. *)
Lemma race_reconciliation client url b o cur arrivals (s : gmap string (Buffer * expiry)) :
  encode (u_err o) (u_buffer o) = Return (Some (EBuf cur)) ->
  arrivals = [StoreDone (GetReply (Some b)); UpstreamDone o] \/
  arrivals = [UpstreamDone o; StoreDone (GetReply (Some b))] ->
  let t := race namespace expires_opt client url arrivals in
  (b = cur -> (forall e, decode (EBuf b) <> Throw e) -> count is_store_write t = 0%nat) /\
  (b <> cur ->
     List.filter is_store_write t =
       [StoreSetex (cache_key namespace url) (resolve_expires expires_opt url) (Some (EBuf cur))] /\
     store_read (store_after s t) (cache_key namespace url) = Some cur).
Proof.
  intros E Harr t.
  assert (Hw : List.filter is_store_write t =
               match decode (EBuf b) with
               | Throw _ =>
                   match arrivals with
                   | StoreDone _ :: _ => finalize namespace expires_opt url (EStr "500") (EBuf cur)
                   | _ => finalize namespace expires_opt url (EBuf b) (EBuf cur)
                   end
               | Return _ => finalize namespace expires_opt url (EBuf b) (EBuf cur)
               end).
  { subst t. destruct Harr as [-> | ->].
    - rewrite (race_writes_store_first _ _ _ _ _ E eq_refl). now destruct (decode _).
    - rewrite (race_writes_upstream_first _ _ _ _ _ E eq_refl). now destruct (decode _). }
  split.
  - intros -> Hd. unfold count. rewrite Hw.
    destruct (decode (EBuf cur)) as [d|e] eqn:D; [|now destruct (Hd e)].
    rewrite finalize_buffers.
    now rewrite (proj2 (Buffer_equals_spec cur cur) eq_refl).
  - intros Hne.
    assert (Hf : finalize namespace expires_opt url (EBuf b) (EBuf cur) =
                 [StoreSetex (cache_key namespace url) (resolve_expires expires_opt url)
                    (Some (EBuf cur))]).
    { rewrite finalize_buffers. destruct (Buffer_equals b cur) eqn:Eq; [|reflexivity].
      apply Buffer_equals_spec in Eq. contradiction. }
    assert (Hw' : List.filter is_store_write t =
                  [StoreSetex (cache_key namespace url) (resolve_expires expires_opt url)
                     (Some (EBuf cur))]).
    { rewrite Hw. destruct (decode (EBuf b)); [assumption|].
      destruct arrivals as [|[|] ?]; assumption || reflexivity. }
    split; [assumption|].
    rewrite store_after_writes, Hw'. apply store_read_after_write.
Qed.

(** A failure that [errcode] recognises is always written again: its
    encoding is a string, which [bufferEqual] does not compare. *)
Lemma race_negative_outcome_writes client url b o n arrivals :
  errcode (u_err o) = Some n ->
  arrivals = [StoreDone (GetReply (Some b)); UpstreamDone o] \/
  arrivals = [UpstreamDone o; StoreDone (GetReply (Some b))] ->
  List.filter is_store_write (race namespace expires_opt client url arrivals) =
  [StoreSetex (cache_key namespace url) (resolve_expires expires_opt url)
     (Some (EStr ("E" +:+ Number_toString n)))].
Proof.
  intros E Harr. pose proof (encode_negative _ (u_buffer o) _ E) as Henc.
  destruct Harr as [-> | ->].
  - rewrite (race_writes_store_first _ _ _ _ _ Henc eq_refl).
    destruct (decode (EBuf b)); apply finalize_string.
  - rewrite (race_writes_upstream_first _ _ _ _ _ Henc eq_refl).
    apply finalize_string.
Qed.

End Strategies.

End Properties.

(** ** The sample platform is lawful *)

Lemma mini_platform_faithful (buffer : payload) :
  JSON_faithful (platform := mini_platform) buffer.
Proof.
  destruct buffer as [| | |items|props]; try exact I.
  - exact (MiniJSONFacts.parse_stringify (JArr items)).
  - exact (MiniJSONFacts.parse_stringify (JObj props)).
Qed.

(** On the sample platform the round trip needs no assumption on JSON. *)
Lemma mini_platform_round_trip (err : option Error) (buffer : payload) :
  encodable err buffer ->
  round_trip (platform := mini_platform) err buffer /\
  round_trip_stored (platform := mini_platform) err buffer.
Proof.
  intros H. apply round_trip_encodable; [exact H|apply mini_platform_faithful].
Qed.

(** * Further properties of the module *)

Section Codec.
Context {platform : Platform}.

(** X1. [decode] throws exactly on an [O] entry whose text [JSON.parse]
    rejects, and what it throws is that [SyntaxError]; on every other
    entry, the empty one included, it returns. *)
Theorem decode_throws_exactly (encoded : entry) :
  ((exists e, decode encoded = Throw e) <->
   (entry_hint encoded = "O" /\
    JSON_parse (entry_toString (entry_rest encoded)) = None)) /\
  (forall e, decode encoded = Throw e -> e = SyntaxError).
Proof.
  split; [split|].
  - intros [e H]. now apply decode_throws_only_on_parse_failure in H.
  - intros [Hh Hp]. exists SyntaxError. now apply decode_parse_failure.
  - intros e H. now apply decode_throws_only_on_parse_failure in H.
Qed.

(** X2. The error values of [decode]. An error that [decode] returns is
    either the rebuilt failure of an [E404] / [E403] entry, with status and
    code equal to that number and the [redis] mark, which [errcode]
    recognises again; or the error [Invalid cache value], which carries no
    status, so that [errcode] does not recognise it and [encode] answers
    [null] on it. *)
Theorem decode_error_values (encoded : entry) (err : Error) :
  decode encoded = Return (DError err) ->
  (exists n, (n = 404 \/ n = 403) /\
     entry_hint encoded = "E" /\
     entry_toString (entry_rest encoded) = Number_toString n /\
     err = mkError EmptyString (PVnum n) (PVnum n) true None /\
     errcode (Some err) = Some n) \/
  (err = new_Error "Invalid cache value" /\
   errcode (Some err) = None /\
   forall buffer, encode (Some err) buffer = Return None).
Proof.
  unfold decode.
  destruct (String.eqb (entry_hint encoded) "E" && _) eqn:E1.
  - intros [= <-]. left.
    apply andb_true_iff in E1 as [E1 E2]. apply String.eqb_eq in E1.
    apply orb_true_iff in E2 as [E2|E2]; apply String.eqb_eq in E2; rewrite E2.
    + exists 404. repeat split; auto.
    + exists 403. repeat split; auto.
  - destruct (negb _).
    + intros [= <-]. right. repeat split.
    + destruct (String.eqb _ "O"); [destruct (JSON_parse _); discriminate|].
      destruct (String.eqb _ "S"); discriminate.
Qed.

Lemma encode_entry_truthy (err : option Error) (buffer : payload) (e : entry) :
  encode err buffer = Return (Some e) -> entry_truthy e = true.
Proof.
  unfold encode. destruct (errcode err).
  - now intros [= <-].
  - destruct err; [discriminate|].
    destruct buffer as [|s| | |]; try discriminate; try (now intros [= <-]).
    destruct (string_truthy s); [now intros [= <-]|discriminate].
Qed.

Lemma encode_entry_shape (err : option Error) (buffer : payload) (e : entry) :
  encode err buffer = Return (Some e) ->
  (exists n, (n = 404 \/ n = 403) /\ errcode err = Some n /\
             e = EStr ("E" +:+ Number_toString n)) \/
  (err = None /\ exists tag rest,
     e = EBuf (tag :: rest) /\
     (tag = "O"%byte \/ tag = "S"%byte \/ tag = "B"%byte)).
Proof.
  intros H. destruct (errcode err) as [n|] eqn:Ec.
  - left. exists n. rewrite (encode_negative _ _ _ Ec) in H. injection H as <-.
    split; [now apply (errcode_cases err)|]. auto.
  - right. destruct err as [x|].
    + rewrite encode_opaque in H by congruence. discriminate.
    + split; [reflexivity|].
      destruct buffer as [|s|b|l|l].
      * discriminate.
      * destruct (string_truthy s) eqn:T.
        -- rewrite (encode_text s T) in H. injection H as <-. eauto 6.
        -- unfold encode in H. simpl in H. rewrite T in H. discriminate.
      * rewrite encode_binary in H. injection H as <-. eauto 6.
      * rewrite encode_structured in H by eauto. injection H as <-. eauto 6.
      * rewrite encode_structured in H by eauto. injection H as <-. eauto 6.
Qed.

(** X3. Every entry that [encode] returns carries one of the four tags,
    as returned and as read back from the store; [decode] therefore never
    answers [Invalid cache value] on an entry that [encode] made. *)
Theorem encode_entry_is_tagged (err : option Error) (buffer : payload) (e : entry) :
  encode err buffer = Return (Some e) ->
  In (entry_hint e) ["E"; "O"; "S"; "B"] /\
  In (entry_hint (stored e)) ["E"; "O"; "S"; "B"] /\
  decode e <> Return (DError (new_Error "Invalid cache value")) /\
  decode (stored e) <> Return (DError (new_Error "Invalid cache value")).
Proof.
  intros H. destruct (encode_entry_shape _ _ _ H) as [(n & Hn & _ & ->)|(_ & tag & rest & -> & Ht)].
  - destruct (decode_negative n Hn) as [D1 D2]. rewrite D1, D2.
    destruct Hn as [-> | ->]; repeat split; simpl; auto; discriminate.
  - unfold stored. simpl entry_bytes.
    destruct Ht as [-> |[-> | ->]].
    + rewrite decode_structured.
      repeat split; simpl; auto; destruct (JSON_parse _); discriminate.
    + assert (D : forall b, decode (EBuf ("S"%byte :: b)) =
                             Return (DValue (JSstring (Buffer_toString b))))
        by (intros b; unfold decode; now rewrite entry_hint_cons, entry_rest_cons).
      rewrite D. repeat split; simpl; auto; discriminate.
    + rewrite decode_binary. repeat split; simpl; auto; discriminate.
Qed.

(** X4. When [encode] throws. [encode] throws exactly when there is no
    error and the payload is falsy (absent, or the empty string), and what
    it throws is a [TypeError]; with an error it never throws, and its
    answer ([E404], [E403] or [null]) does not depend on the payload. *)
Theorem encode_throws_exactly (err : option Error) (buffer : payload) :
  ((exists x, encode err buffer = Throw x) <->
   (err = None /\ payload_truthy buffer = false)) /\
  (forall x, encode err buffer = Throw x -> x = TypeError) /\
  (err <> None ->
   (forall buffer', encode err buffer' = encode err buffer) /\
   (encode err buffer = Return None \/
    encode err buffer = Return (Some (EStr "E404")) \/
    encode err buffer = Return (Some (EStr "E403")))).
Proof.
  split; [split|split].
  - intros [x H]. unfold encode in H. destruct (errcode err); [discriminate|].
    destruct err; [discriminate|]. split; [reflexivity|].
    destruct buffer as [|s| | |]; try discriminate; try reflexivity.
    simpl in *. now destruct (string_truthy s).
  - intros [-> H]. exists TypeError.
    destruct buffer as [|s| | |]; try discriminate; [reflexivity|].
    simpl in H. unfold encode. simpl. now rewrite H.
  - intros x H. unfold encode in H. destruct (errcode err); [discriminate|].
    destruct err; [discriminate|].
    destruct buffer as [|s| | |]; try discriminate; [congruence|].
    simpl in H. destruct (string_truthy s); [discriminate|congruence].
  - intros Herr. destruct (errcode err) as [n|] eqn:Ec.
    + split.
      * intros buffer'. now rewrite !(encode_negative _ _ _ Ec).
      * rewrite (encode_negative _ _ _ Ec).
        destruct (errcode_cases _ _ Ec) as [-> | ->]; auto.
    + split.
      * intros buffer'. now rewrite !encode_opaque.
      * left. now apply encode_opaque.
Qed.

(** X5. No two outcomes share an entry. When two outcomes are encoded to
    entries with the same bytes (and [JSON.parse] undoes [JSON.stringify]
    on their payloads), they are the same outcome: both the same failure,
    or both successes with the same data. *)
Theorem entries_identify_outcomes (err err' : option Error) (buffer buffer' : payload)
    (e e' : entry) :
  encode err buffer = Return (Some e) ->
  encode err' buffer' = Return (Some e') ->
  JSON_faithful buffer -> JSON_faithful buffer' ->
  entry_bytes e = entry_bytes e' ->
  outcome_kind err (payload_data buffer) = outcome_kind err' (payload_data buffer').
Proof.
  intros E E' J J' Hb.
  destruct (round_trip_encodable _ _ (encode_Some_encodable _ _ _ E) J)
    as [_ (e1 & d & E1 & D & K)].
  destruct (round_trip_encodable _ _ (encode_Some_encodable _ _ _ E') J')
    as [_ (e1' & d' & E1' & D' & K')].
  rewrite E in E1. injection E1 as <-. rewrite E' in E1'. injection E1' as <-.
  unfold stored in D, D'. rewrite Hb in D. rewrite D in D'. injection D' as <-.
  now rewrite <- K, <- K'.
Qed.

End Codec.

Section Construction.
Context {platform : Platform}.

Lemma or_expiry_nonzero (a : option expiry) (b : expiry) :
  b <> Seconds 0 -> or_expiry a b <> Seconds 0.
Proof.
  intros Hb. unfold or_expiry. destruct a as [[n|name]|]; simpl; [|discriminate|assumption].
  destruct (n =? 0) eqn:E; simpl; [assumption|].
  apply Z.eqb_neq in E. congruence.
Qed.

(** X6. Expiry by hostname, lines 52-57 and 114-119. With a table, the
    expiry of a url is the table's own entry for its hostname when there is
    one and it is not 0; when the table has no own entry for the hostname
    but [Object.prototype] has a property of that name ([constructor],
    [__proto__], ...), it is that inherited function or object, not a
    number; else it is the [default] entry when there is one and it is not
    0, else 300.  A url without hostname is looked up under [null].  The
    result is never 0. *)
Theorem expiry_by_hostname (table : gmap string Z) (url : string) :
  let host := default "null" (url_hostname url) in
  let falsy (k : string) :=
    table !! k = Some 0 \/ (table !! k = None /\ inherited k = false) in
  let missing (k : string) := table !! k = None \/ table !! k = Some 0 in
  resolve_expires (ExpiresByHost table) url <> Seconds 0 /\
  (forall n, table !! host = Some n -> n <> 0 ->
     resolve_expires (ExpiresByHost table) url = Seconds n) /\
  (table !! host = None -> inherited host = true ->
     resolve_expires (ExpiresByHost table) url = Inherited host) /\
  (forall n, falsy host -> table !! "default" = Some n -> n <> 0 ->
     resolve_expires (ExpiresByHost table) url = Seconds n) /\
  (falsy host -> missing "default" ->
     resolve_expires (ExpiresByHost table) url = Seconds 300).
Proof.
  intros host falsy missing. unfold resolve_expires. fold host. repeat apply conj.
  - apply or_expiry_nonzero, or_expiry_nonzero. discriminate.
  - intros n Hh Hn. unfold table_get at 1. rewrite Hh. simpl.
    apply Z.eqb_neq in Hn. now rewrite Hn.
  - intros Hh Hi. unfold table_get at 1. now rewrite Hh, Hi.
  - intros n Hf Hd Hn.
    assert (Hhost : or_expiry (table_get table host)
                      (or_expiry (table_get table "default") (Seconds 300)) =
                    or_expiry (table_get table "default") (Seconds 300))
      by (unfold table_get at 1; destruct Hf as [-> |[-> ->]]; reflexivity).
    rewrite Hhost. unfold table_get. rewrite Hd. simpl.
    apply Z.eqb_neq in Hn. now rewrite Hn.
  - intros Hf Hd.
    assert (Hhost : or_expiry (table_get table host)
                      (or_expiry (table_get table "default") (Seconds 300)) =
                    or_expiry (table_get table "default") (Seconds 300))
      by (unfold table_get at 1; destruct Hf as [-> |[-> ->]]; reflexivity).
    rewrite Hhost. unfold table_get. destruct Hd as [-> | ->]; reflexivity.
Qed.

(** The expiry of an accepted configuration is never 0. *)
Lemma resolve_expires_nonzero (e : expires_option) (url : string) :
  expires_truthy e = true -> resolve_expires e url <> 0.
Proof.
  destruct e as [n|table]; simpl.
  - intros H. apply negb_true_iff in H. apply Z.eqb_neq in H. congruence.
  - intros _. apply or_expiry_nonzero, or_expiry_nonzero. discriminate.
Qed.

Lemma cachingGet_built (namespace : option string) (options : option user_options)
    (get : option (receiver -> string -> outcome)) (d : decorated) :
  cachingGet namespace options get = Built d ->
  get = Some (d_get d) /\
  namespace = Some (d_namespace d) /\ d_namespace d <> EmptyString /\
  return_buffers (d_client d) = true /\
  d_expires d = default (ExpiresNumber 300) (options ≫= opt_expires) /\
  expires_truthy (d_expires d) = true /\
  d_mode d = default "readthrough" (options ≫= opt_mode) /\
  ((d_mode d = "readthrough" /\ d_strategy d = Readthrough) \/
   (d_mode d = "race" /\ d_strategy d = Race)).
Proof.
  unfold cachingGet. destruct get as [g|]; [|discriminate].
  destruct namespace as [ns|]; [|discriminate]. simpl default.
  destruct (string_truthy ns) eqn:Tns; [|discriminate]. simpl negb. cbv iota.
  assert (Hns : ns <> EmptyString) by (intros ->; discriminate).
  set (o := default (mkOptions None None None) options).
  assert (He : default (ExpiresNumber 300) (opt_expires o) =
               default (ExpiresNumber 300) (options ≫= opt_expires))
    by (now destruct options).
  assert (Hm : default "readthrough" (opt_mode o) =
               default "readthrough" (options ≫= opt_mode))
    by (now destruct options).
  rewrite He, Hm.
  destruct (opt_client o);
    (destruct (expires_truthy _) eqn:Te; [|discriminate]; simpl negb; cbv iota;
     destruct (String.eqb _ "readthrough") eqn:M1;
     [apply String.eqb_eq in M1; intros [= <-]; simpl; rewrite M1; auto 10|];
     destruct (String.eqb _ "race") eqn:M2; [|discriminate];
     apply String.eqb_eq in M2; intros [= <-]; simpl; rewrite M2; auto 10).
Qed.

(** X7. What [cachingGet] accepts. It returns a function exactly when a
    [get] is given, the namespace is a non-empty string, [expires] is
    missing or truthy, and [mode] is missing, [readthrough] or [race]; a
    missing [expires] stands for 300 and a missing [mode] for
    [readthrough]; the client it uses returns Buffers.  It never fails for
    want of a redis client: it makes one when none is given. *)
Theorem cachingGet_accepts (namespace : option string) (options : option user_options)
    (get : option (receiver -> string -> outcome)) :
  let expires := default (ExpiresNumber 300) (options ≫= opt_expires) in
  let mode := default "readthrough" (options ≫= opt_mode) in
  ((exists d, cachingGet namespace options get = Built d) <->
   (get <> None /\
    (exists ns, namespace = Some ns /\ ns <> EmptyString) /\
    expires <> ExpiresNumber 0 /\
    (mode = "readthrough" \/ mode = "race"))) /\
  (forall d, cachingGet namespace options get = Built d ->
     Some (d_namespace d) = namespace /\ Some (d_get d) = get /\
     d_expires d = expires /\ d_mode d = mode /\
     d_strategy d = (if String.eqb mode "race" then Race else Readthrough) /\
     return_buffers (d_client d) = true) /\
  cachingGet namespace options get <> Fails "No redis client".
Proof.
  intros expires mode. subst expires mode. split; [split|split].
  - intros [d H]. apply cachingGet_built in H
      as (Hg & Hn & Hne & _ & He & Ht & Hm & Hs).
    repeat split.
    + congruence.
    + eauto.
    + intros E. rewrite He, E in Ht. discriminate.
    + rewrite <- Hm. tauto.
  - intros (Hg & (ns & -> & Hns) & He & Hm).
    destruct get as [g|]; [|congruence].
    unfold cachingGet. simpl default.
    destruct ns as [|c r]; [congruence|]. simpl string_truthy. simpl negb. cbv iota.
    set (o := default (mkOptions None None None) options).
    assert (He' : default (ExpiresNumber 300) (opt_expires o) =
                  default (ExpiresNumber 300) (options ≫= opt_expires))
      by (now destruct options).
    assert (Hm' : default "readthrough" (opt_mode o) =
                  default "readthrough" (options ≫= opt_mode))
      by (now destruct options).
    rewrite He', Hm'.
    assert (Ht : expires_truthy (default (ExpiresNumber 300) (options ≫= opt_expires)) = true).
    { destruct (default (ExpiresNumber 300) (options ≫= opt_expires)) as [n|];
        [|reflexivity]. simpl. apply negb_true_iff, Z.eqb_neq. congruence. }
    destruct (opt_client o); rewrite Ht; simpl negb; cbv iota;
      (destruct Hm as [-> | ->]; simpl; eauto).
  - intros d H. apply cachingGet_built in H
      as (Hg & Hn & Hne & Hc & He & Ht & Hm & Hs).
    repeat split; auto.
    rewrite <- Hm. destruct Hs as [[-> ->]|[-> ->]]; reflexivity.
  - unfold cachingGet. destruct get; [|discriminate].
    destruct (negb _); [discriminate|].
    destruct (opt_client _);
      (destruct (negb _); [discriminate|];
       destruct (String.eqb _ "readthrough"); [discriminate|];
       destruct (String.eqb _ "race"); discriminate).
Qed.

(** X8. The order of the complaints of [cachingGet]. A missing [get] is
    reported first, then an empty namespace, then a falsy [expires], and
    an unknown [mode] last, by name. *)
Theorem cachingGet_complaints (namespace : option string) (options : option user_options)
    (get : option (receiver -> string -> outcome)) :
  let expires := default (ExpiresNumber 300) (options ≫= opt_expires) in
  let mode := default "readthrough" (options ≫= opt_mode) in
  let no_namespace := namespace = None \/ namespace = Some EmptyString in
  (get = None -> cachingGet namespace options get = Fails "No get function provided") /\
  (get <> None -> no_namespace ->
     cachingGet namespace options get = Fails "No namespace provided") /\
  (get <> None -> ~ no_namespace -> expires = ExpiresNumber 0 ->
     cachingGet namespace options get = Fails "No expires option set") /\
  (get <> None -> ~ no_namespace -> expires <> ExpiresNumber 0 ->
     mode <> "readthrough" -> mode <> "race" ->
     cachingGet namespace options get = Fails ("Invalid value for options.mode " +:+ mode)).
Proof.
  intros expires mode no_namespace. subst expires mode no_namespace.
  assert (He : forall o, o = default (mkOptions None None None) options ->
                 default (ExpiresNumber 300) (opt_expires o) =
                 default (ExpiresNumber 300) (options ≫= opt_expires))
    by (intros o ->; now destruct options).
  assert (Hm : forall o, o = default (mkOptions None None None) options ->
                 default "readthrough" (opt_mode o) =
                 default "readthrough" (options ≫= opt_mode))
    by (intros o ->; now destruct options).
  repeat split.
  - now intros ->.
  - intros Hg Hn. destruct get; [|congruence]. unfold cachingGet.
    now destruct Hn as [-> | ->].
  - intros Hg Hn Hz. destruct get; [|congruence]. unfold cachingGet.
    destruct namespace as [[|c r]|]; try (exfalso; apply Hn; auto; fail).
    simpl default. simpl string_truthy. simpl negb. cbv iota.
    rewrite (He _ eq_refl), Hz. now destruct (opt_client _).
  - intros Hg Hn Hz M1 M2. destruct get; [|congruence]. unfold cachingGet.
    destruct namespace as [[|c r]|]; try (exfalso; apply Hn; auto; fail).
    simpl default. simpl string_truthy. simpl negb. cbv iota.
    rewrite (He _ eq_refl), (Hm _ eq_refl).
    assert (Ht : expires_truthy (default (ExpiresNumber 300) (options ≫= opt_expires)) = true).
    { destruct (default (ExpiresNumber 300) (options ≫= opt_expires)) as [n|];
        [|reflexivity]. simpl. apply negb_true_iff, Z.eqb_neq. congruence. }
    apply String.eqb_neq in M1, M2.
    destruct (opt_client _); now rewrite Ht, M1, M2.
Qed.

(** X9. The factory, lines 6-21. [module.exports] fails when no class is
    given or when its prototype has no [get]; otherwise it is [cachingGet]
    with the namespace [TL] and that [get], so that it never complains
    about a missing [get] or namespace, and every class it wraps uses the
    same keys, [TL-] followed by the url. *)
Theorem module_exports_wraps (options : option user_options) (Source : option source_class) :
  (Source = None -> module_exports options Source = Fails "No source provided") /\
  (forall cls, Source = Some cls -> prototype_get cls = None ->
     module_exports options Source = Fails "No get method found on source") /\
  (forall cls get, Source = Some cls -> prototype_get cls = Some get ->
     module_exports options Source = cachingGet (Some "TL") options (Some get)) /\
  module_exports options Source <> Fails "No get function provided" /\
  module_exports options Source <> Fails "No namespace provided" /\
  (forall d, module_exports options Source = Built d ->
     d_namespace d = "TL" /\
     forall url, cache_key (d_namespace d) url = "TL-" +:+ url).
Proof.
  repeat split.
  - now intros ->.
  - intros cls -> H. unfold module_exports. now rewrite H.
  - intros cls get -> H. unfold module_exports. now rewrite H.
  - unfold module_exports. destruct Source as [cls|]; [|discriminate].
    destruct (prototype_get cls); [|discriminate].
    unfold cachingGet. simpl.
    repeat match goal with |- context [if ?c then _ else _] => destruct c end;
      try discriminate;
      repeat match goal with |- context [match ?c with _ => _ end] => destruct c end;
      discriminate.
  - unfold module_exports. destruct Source as [cls|]; [|discriminate].
    destruct (prototype_get cls); [|discriminate].
    unfold cachingGet. simpl.
    repeat match goal with |- context [if ?c then _ else _] => destruct c end;
      try discriminate;
      repeat match goal with |- context [match ?c with _ => _ end] => destruct c end;
      discriminate.
  - unfold module_exports in H. destruct Source as [cls|]; [|discriminate].
    destruct (prototype_get cls); [|discriminate].
    apply cachingGet_built in H as (_ & [= <-] & _). reflexivity.
  - intros url. unfold module_exports in H. destruct Source as [cls|]; [|discriminate].
    destruct (prototype_get cls); [|discriminate].
    apply cachingGet_built in H as (_ & [= <-] & _). reflexivity.
Qed.

End Construction.

Section Keys.

Lemma occurs_append_dash (ns ns' rest rest' : string) :
  occurs "-" ns = false -> occurs "-" ns' = false ->
  ns +:+ String "-" rest = ns' +:+ String "-" rest' -> ns = ns' /\ rest = rest'.
Proof.
  revert ns'. induction ns as [|c r IH]; intros [|c' r'] H H' E.
  - now injection E as ->.
  - injection E as <- _. discriminate H'.
  - injection E as -> _. discriminate H.
  - injection E as <- E. simpl in H, H'.
    apply orb_false_iff in H as [_ H]. apply orb_false_iff in H' as [_ H'].
    destruct (IH r' H H' E) as [-> ->]. auto.
Qed.

(** X10. Cache keys, lines 49 and 111. Under one namespace, different
    urls have different keys.  Two namespaces that contain no [-] never
    share a key; with a [-] in a namespace they can. *)
Theorem cache_key_injective :
  (forall ns url url', cache_key ns url = cache_key ns url' -> url = url') /\
  (forall ns ns' url url',
     occurs "-" ns = false -> occurs "-" ns' = false ->
     cache_key ns url = cache_key ns' url' -> ns = ns' /\ url = url') /\
  (exists ns ns' url url', ns <> ns' /\ cache_key ns url = cache_key ns' url').
Proof.
  split; [|split].
  - intros ns url url' H. unfold cache_key in H.
    apply String.app_inj in H. now injection H.
  - intros ns ns' url url' H H' E. now apply (occurs_append_dash ns ns' url url').
  - exists "a-b", "a", "c", "b-c". split; [discriminate|reflexivity].
Qed.

End Keys.

Section Readthrough.
Context {platform : Platform}.
Variable namespace : string.
Variable expires_opt : expires_option.

(** The three shapes of the upstream callback of [readthrough]. *)
Lemma readthrough_upstream_callback_shape (url : string) (o : outcome) :
  let cb := readthrough_upstream_callback namespace expires_opt url o in
  (opaque_failure o /\ cb = [Callback (u_err o) JSundefined None]) \/
  (exists e, encode (u_err o) (u_buffer o) = Return (Some e) /\
     cb = [deliver_outcome o;
           StoreSetex (cache_key namespace url) (resolve_expires expires_opt url) (Some e)]) \/
  (exists x, encode (u_err o) (u_buffer o) = Throw x /\
     cb = [deliver_outcome o; Uncaught x]).
Proof.
  unfold readthrough_upstream_callback, opaque_failure, deliver_outcome.
  destruct (u_err o) as [err|] eqn:Ee.
  - destruct (errcode (Some err)) eqn:Ec.
    + right. destruct (encode (Some err) (u_buffer o)) as [[e|]|x] eqn:En; eauto.
      exfalso. apply (encode_not_null (Some err) (u_buffer o)); [right; congruence|assumption].
    + left. split; [split; [discriminate|reflexivity]|reflexivity].
  - right. simpl. destruct (encode None (u_buffer o)) as [[e|]|x] eqn:En; eauto.
    exfalso. apply (encode_not_null None (u_buffer o)); [now left|assumption].
Qed.

(** The shapes of a run of [readthrough]. *)
Lemma readthrough_shape (client : redis_client) (url : string)
    (upstream : receiver -> string -> outcome) (r : store_reply) :
  let t := readthrough namespace expires_opt client url upstream r in
  let key := cache_key namespace url in
  (exists d, t = [Emit d; UpstreamGet ThisSource url; deliver_outcome (upstream ThisSource url)]) \/
  (exists d, t = [StoreGet key; Emit d; UpstreamGet ThisUnbound url;
                  deliver_outcome (upstream ThisUnbound url)]) \/
  (exists err data, t = [StoreGet key; Callback err data None]) \/
  (exists head,
     t = head ++ readthrough_upstream_callback namespace expires_opt url (upstream ThisSource url) /\
     (head = [StoreGet key; UpstreamGet ThisSource url] \/
      exists d, head = [StoreGet key; Emit d; UpstreamGet ThisSource url])).
Proof.
  intros t key. subst t key. unfold readthrough.
  destruct (below_high_water client); [|left; eauto].
  right. unfold readthrough_store_callback. destruct r as [err|[b|]].
  - left. eauto.
  - right. destruct (decode (EBuf b)) as [[e|d]|x].
    + left. eauto.
    + destruct (jsdata_truthy d).
      * left. eauto.
      * right. eexists. split; [|left; reflexivity]. reflexivity.
    + right. eexists. split; [|right; eexists; reflexivity]. reflexivity.
  - right. right. eexists. split; [|left; reflexivity]. reflexivity.
Qed.

(** X11. [readthrough] answers exactly once. In every run, whatever the
    state of the client, the answer of the store and the outcome of the
    upstream (a payload on which [encode] throws included), the caller's
    callback is called exactly once; the upstream is called at most once,
    and at most one lookup and one write are issued. *)
Theorem readthrough_delivers_exactly_once (client : redis_client) (url : string)
    (upstream : receiver -> string -> outcome) (r : store_reply) :
  let t := readthrough namespace expires_opt client url upstream r in
  count is_callback t = 1%nat /\
  (count is_upstream_call t <= 1)%nat /\
  (count is_store_write t <= 1)%nat /\
  (count (fun e => match e with StoreGet _ => true | _ => false end) t <= 1)%nat.
Proof.
  intros t. subst t.
  destruct (readthrough_shape client url upstream r)
    as [[d ->]|[[d ->]|[(err & data & ->)|(head & -> & Hh)]]];
    unfold deliver_outcome, count; try (repeat apply conj; simpl; lia).
  rewrite !List.filter_app, !length_app.
  destruct (readthrough_upstream_callback_shape url (upstream ThisSource url))
    as [[_ ->]|[(e & _ & ->)|(x & _ & ->)]];
    destruct Hh as [-> |[d ->]]; unfold deliver_outcome; repeat apply conj; simpl; lia.
Qed.

(** X12. [readthrough] answers before it writes. A write, when there is
    one, is the last action of the run; it comes after the one call of the
    caller's callback, in a run that looked the key up and then called the
    upstream with the source as receiver; it carries the key of the url,
    the resolved expiry and an entry (never [null]). *)
Theorem readthrough_answers_before_writing (client : redis_client) (url : string)
    (upstream : receiver -> string -> outcome) (r : store_reply)
    (key : string) (ttl : expiry) (v : option entry) :
  let t := readthrough namespace expires_opt client url upstream r in
  In (StoreSetex key ttl v) t ->
  exists before e,
    t = before ++ [StoreSetex key ttl v] /\
    count is_callback before = 1%nat /\
    count is_store_write before = 0%nat /\
    In (StoreGet key) before /\ In (UpstreamGet ThisSource url) before /\
    key = cache_key namespace url /\ ttl = resolve_expires expires_opt url /\
    v = Some e /\
    encode (u_err (upstream ThisSource url)) (u_buffer (upstream ThisSource url)) =
      Return (Some e).
Proof.
  intros t. subst t.
  destruct (readthrough_shape client url upstream r)
    as [[d ->]|[[d ->]|[(err & data & ->)|(head & -> & Hh)]]];
    try (simpl; intuition discriminate).
  destruct (readthrough_upstream_callback_shape url (upstream ThisSource url))
    as [[_ ->]|[(e & He & ->)|(x & _ & ->)]]; intros Hin;
    apply in_app_or in Hin as [Hin|Hin];
    try (destruct Hh as [-> |[d ->]]; simpl in Hin; intuition discriminate);
    try (simpl in Hin; intuition discriminate).
  destruct Hin as [Hin|[Hin|[]]]; [discriminate|]. injection Hin as <- <- <-.
  exists (head ++ [deliver_outcome (upstream ThisSource url)]), e.
  rewrite <- app_assoc. split; [reflexivity|].
  unfold count, deliver_outcome.
  destruct Hh as [-> |[d ->]]; simpl; repeat apply conj; auto.
Qed.

(** The write of a run of [readthrough], for use below. *)
Lemma readthrough_write_shape (client : redis_client) (url : string)
    (upstream : receiver -> string -> outcome) (r : store_reply)
    (key : string) (ttl : expiry) (v : option entry) :
  In (StoreSetex key ttl v) (readthrough namespace expires_opt client url upstream r) ->
  key = cache_key namespace url /\ ttl = resolve_expires expires_opt url /\ v <> None.
Proof.
  destruct (readthrough_shape client url upstream r)
    as [[d ->]|[[d ->]|[(err & data & ->)|(head & -> & Hh)]]];
    try (simpl; intuition discriminate).
  destruct (readthrough_upstream_callback_shape url (upstream ThisSource url))
    as [[_ ->]|[(e & He & ->)|(x & _ & ->)]]; intros Hin;
    apply in_app_or in Hin as [Hin|Hin];
    try (destruct Hh as [-> |[d ->]]; simpl in Hin; intuition discriminate);
    try (simpl in Hin; intuition discriminate).
  destruct Hin as [Hin|[Hin|[]]]; [discriminate|]. injection Hin as <- <- <-.
  repeat split. discriminate.
Qed.

(** X13. A second call is a hit. A call of [readthrough] that finds no
    entry and whose upstream outcome [encode] accepts leaves the entry in
    the store; the next call for the url, by the same or by another
    decorated function with that namespace, is answered from the store
    with an outcome of the same kind (the same data, the same status),
    without headers and without a call of its upstream. *)
Theorem readthrough_second_call_hits (client client' : redis_client) (url : string)
    (upstream upstream' : receiver -> string -> outcome)
    (s : gmap string (Buffer * expiry)) (e : entry) :
  let key := cache_key namespace url in
  let o := upstream ThisSource url in
  let first := readthrough namespace expires_opt client url upstream (lookup s key) in
  let second := readthrough namespace expires_opt client' url upstream'
                  (lookup (store_after s first) key) in
  below_high_water client = true -> below_high_water client' = true ->
  store_read s key = None ->
  encode (u_err o) (u_buffer o) = Return (Some e) ->
  JSON_faithful (u_buffer o) ->
  first = [StoreGet key; UpstreamGet ThisSource url; deliver_outcome o;
           StoreSetex key (resolve_expires expires_opt url) (Some e)] /\
  store_read (store_after s first) key = Some (entry_bytes e) /\
  exists err data,
    second = [StoreGet key; Callback err data None] /\
    outcome_kind err data = outcome_kind (u_err o) (payload_data (u_buffer o)).
Proof.
  intros key o first second H H' Hmiss He J.
  assert (Hfirst : first = [StoreGet key; UpstreamGet ThisSource url; deliver_outcome o;
                            StoreSetex key (resolve_expires expires_opt url) (Some e)]).
  { subst first. unfold lookup. rewrite Hmiss, (readthrough_miss _ _ _ _ _ H).
    fold key o.
    destruct (readthrough_upstream_callback_shape url o)
      as [[[H1 H2] _]|[(e' & He' & ->)|(x & Hx & _)]].
    - rewrite (encode_opaque _ _ H1 H2) in He. discriminate.
    - rewrite He in He'. now injection He' as <-.
    - rewrite He in Hx. discriminate. }
  assert (Hread : store_read (store_after s first) key = Some (entry_bytes e)).
  { rewrite Hfirst. unfold store_read, store_after. simpl. now rewrite lookup_insert_eq. }
  split; [exact Hfirst|]. split; [exact Hread|].
  pose proof (encode_Some_encodable _ _ _ He) as Henc.
  destruct (round_trip_encodable _ _ Henc J) as [_ (e' & d & E' & D & K)].
  rewrite He in E'. injection E' as <-. unfold stored in D.
  pose proof (decoded_kind_truthy _ _ _ Henc K) as T.
  destruct (deliver_decoded_kind d) as (err & data & Hd & Hk).
  exists err, data. split; [|now rewrite Hk].
  subst second. unfold lookup. rewrite Hread.
  now rewrite (readthrough_hit _ _ _ _ _ _ _ H' D T), Hd.
Qed.

(** X14. How a failure that [errcode] does not recognise reaches the
    caller of [readthrough]. After a miss the caller is given the error
    alone, without the data and the headers the upstream passed with it;
    when the lookup failed or was not made, the upstream is handed the
    caller's callback and the caller is given all three. *)
Theorem readthrough_unrecognised_failure (client : redis_client) (url : string)
    (upstream : receiver -> string -> outcome) (err : Error) :
  (forall this, opaque_failure (upstream this url)) ->
  (below_high_water client = true ->
   delivered (readthrough namespace expires_opt client url upstream (GetReply None)) =
     [Callback (u_err (upstream ThisSource url)) JSundefined None] /\
   delivered (readthrough namespace expires_opt client url upstream (GetError err)) =
     [deliver_outcome (upstream ThisUnbound url)]) /\
  (below_high_water client = false ->
   forall r, delivered (readthrough namespace expires_opt client url upstream r) =
     [deliver_outcome (upstream ThisSource url)]).
Proof.
  intros Hop. split.
  - intros H. split.
    + rewrite (readthrough_miss _ _ _ _ _ H).
      destruct (Hop ThisSource) as [H1 H2].
      unfold readthrough_upstream_callback. rewrite H2.
      now destruct (u_err (upstream ThisSource url)).
    + now rewrite (readthrough_store_error _ _ _ _ _ _ H).
  - intros H r. now rewrite (readthrough_denied _ _ _ _ _ _ H).
Qed.

End Readthrough.

Section Race.
Context {platform : Platform}.
Variable namespace : string.
Variable expires_opt : expires_option.

Lemma reconcile_shape (url : string) (v : race_vars) :
  reconcile namespace expires_opt url v = [] \/
  exists cur, current v = Some cur /\ cached v <> None /\
    reconcile namespace expires_opt url v =
    [StoreSetex (cache_key namespace url) (resolve_expires expires_opt url) (Some cur)].
Proof.
  unfold reconcile. destruct (cached v) as [ca|]; [|now left].
  destruct (current v) as [cu|]; [|now left].
  destruct (_ && _); [|now left]. unfold finalize.
  destruct (optbool_truthy _); [now left|]. right. exists cu. repeat split. discriminate.
Qed.

(** What the two callbacks write, and how they change the variables. *)
Lemma race_upstream_callback_effect (url : string) (o : outcome) (v : race_vars) :
  let res := race_upstream_callback namespace expires_opt url o v in
  cached (fst res) = cached v /\
  (current (fst res) = current v \/
   current (fst res) = None \/
   exists cur, encode (u_err o) (u_buffer o) = Return (Some cur) /\
               current (fst res) = Some cur) /\
  (List.filter is_store_write (snd res) = [] \/
   exists cur, encode (u_err o) (u_buffer o) = Return (Some cur) /\ cached v <> None /\
     List.filter is_store_write (snd res) =
     [StoreSetex (cache_key namespace url) (resolve_expires expires_opt url) (Some cur)]).
Proof.
  unfold race_upstream_callback.
  destruct (encode (u_err o) (u_buffer o)) as [cur|x] eqn:E; simpl.
  - destruct (reconcile_shape url (mkVars (sent v) (cached v) cur))
      as [Hr|(c & Hc & Hca & Hr)]; simpl in *.
    + destruct (sent v); simpl; rewrite ?List.filter_app, Hr;
        (split; [reflexivity|]); (split; [|now left]);
        destruct cur; eauto.
    + subst cur. destruct (sent v); simpl; rewrite ?List.filter_app, Hr;
        (split; [reflexivity|]); (split; [|right]); eauto.
  - auto.
Qed.

Lemma race_store_callback_effect (url : string) (r : store_reply) (v : race_vars) :
  let res := race_store_callback namespace expires_opt url r v in
  current (fst res) = current v /\
  ((exists err, r = GetError err) -> cached (fst res) = cached v) /\
  (List.filter is_store_write (snd res) = [] \/
   exists cur, current v = Some cur /\ (exists encoded, r = GetReply encoded) /\
     List.filter is_store_write (snd res) =
     [StoreSetex (cache_key namespace url) (resolve_expires expires_opt url) (Some cur)]).
Proof.
  unfold race_store_callback. destruct r as [err|encoded]; simpl.
  - repeat split; auto.
  - set (v1 := mkVars (sent v) (Some (from_option EBuf (EStr "500") encoded)) (current v)).
    assert (Hw : List.filter is_store_write (reconcile namespace expires_opt url v1) = [] \/
                 exists cur, current v = Some cur /\ (exists enc, GetReply encoded = GetReply enc) /\
                   List.filter is_store_write (reconcile namespace expires_opt url v1) =
                   [StoreSetex (cache_key namespace url) (resolve_expires expires_opt url)
                      (Some cur)]).
    { destruct (reconcile_shape url v1) as [-> |(c & Hc & _ & ->)]; [now left|].
      right. exists c. eauto. }
    destruct encoded as [b|]; simpl.
    + destruct (sent v); simpl.
      * split; [reflexivity|]. split; [intros [? [=]]|]. exact Hw.
      * destruct (decode (EBuf b)) as [[e|d]|x]; simpl;
          [| destruct (jsdata_truthy d); simpl |];
          rewrite ?List.filter_app; simpl; rewrite ?app_nil_r;
          (split; [reflexivity|]); (split; [intros [? [=]]|]); exact Hw.
    + split; [reflexivity|]. split; [intros [? [=]]|]. exact Hw.
Qed.

Lemma race_write_shape (client : redis_client) (url : string)
    (arrivals : list arrival) (key : string) (ttl : expiry) (v : option entry) :
  In (StoreSetex key ttl v) (race namespace expires_opt client url arrivals) ->
  key = cache_key namespace url /\ ttl = resolve_expires expires_opt url /\
  exists o cur,
    In (UpstreamDone o) arrivals /\
    encode (u_err o) (u_buffer o) = Return (Some cur) /\ v = Some cur.
Proof.
  assert (G : forall arrivals vars,
    In (StoreSetex key ttl v) (race_callbacks namespace expires_opt url arrivals vars) ->
    key = cache_key namespace url /\ ttl = resolve_expires expires_opt url /\
    exists cur, v = Some cur /\
      (current vars = Some cur \/
       exists o, In (UpstreamDone o) arrivals /\
                 encode (u_err o) (u_buffer o) = Return (Some cur))).
  { clear arrivals. intros arrivals. induction arrivals as [|[o|r] rest IH]; intros vars Hin.
    - destruct Hin.
    - rewrite race_callbacks_upstream in Hin. apply in_app_or in Hin as [Hin|Hin].
      + assert (Hin' : In (StoreSetex key ttl v)
                  (List.filter is_store_write
                     (snd (race_upstream_callback namespace expires_opt url o vars))))
          by (apply List.filter_In; auto).
        destruct (race_upstream_callback_effect url o vars)
          as (_ & _ & [Hw|(cur & E & _ & Hw)]); rewrite Hw in Hin'; [destruct Hin'|].
        destruct Hin' as [[= <- <- <-]|[]]. repeat split.
        exists cur. split; [reflexivity|]. right. exists o. split; [now left|assumption].
      + destruct (IH _ Hin) as (Hk & Ht & cur & -> & Hc). repeat split; auto.
        exists cur. split; [reflexivity|].
        destruct Hc as [Hc|(o' & Ho' & E')].
        * destruct (race_upstream_callback_effect url o vars)
            as (_ & [Hcur|[Hcur|(c & E & Hcur)]] & _).
          -- left. congruence.
          -- congruence.
          -- right. exists o. split; [now left|]. congruence.
        * right. exists o'. split; [now right|assumption].
    - rewrite race_callbacks_store in Hin. apply in_app_or in Hin as [Hin|Hin].
      + assert (Hin' : In (StoreSetex key ttl v)
                  (List.filter is_store_write
                     (snd (race_store_callback namespace expires_opt url r vars))))
          by (apply List.filter_In; auto).
        destruct (race_store_callback_effect url r vars)
          as (_ & _ & [Hw|(cur & Hc & _ & Hw)]); rewrite Hw in Hin'; [destruct Hin'|].
        destruct Hin' as [[= <- <- <-]|[]]. repeat split.
        exists cur. split; [reflexivity|]. now left.
      + destruct (IH _ Hin) as (Hk & Ht & cur & -> & Hc). repeat split; auto.
        exists cur. split; [reflexivity|].
        destruct (race_store_callback_effect url r vars) as (Hcur & _ & _).
        destruct Hc as [Hc|(o' & Ho' & E')].
        * left. congruence.
        * right. exists o'. split; [now right|assumption]. }
  intros Hin. unfold race in Hin. apply in_app_or in Hin as [Hin|Hin].
  - unfold race_issue in Hin. destruct (below_high_water client); simpl in Hin;
      intuition discriminate.
  - destruct (G _ _ Hin) as (Hk & Ht & cur & -> & [Hc|(o & Ho & E)]); [discriminate|].
    repeat split; auto. eauto.
Qed.

(** X18. What [race] writes. In every run, whatever arrives and in
    whatever order, each write carries the key of the url, the resolved
    expiry, and the entry that [encode] returned on an upstream outcome of
    that run: never [null], never the entry that was read from the
    store. *)
Theorem race_writes_upstream_encoding (client : redis_client) (url : string)
    (arrivals : list arrival) (key : string) (ttl : expiry) (v : option entry) :
  In (StoreSetex key ttl v) (race namespace expires_opt client url arrivals) ->
  key = cache_key namespace url /\ ttl = resolve_expires expires_opt url /\
  exists o cur,
    In (UpstreamDone o) arrivals /\
    encode (u_err o) (u_buffer o) = Return (Some cur) /\ v = Some cur.
Proof. exact (race_write_shape client url arrivals key ttl v). Qed.


(** X19. A failed lookup never leads to a write. When every answer of
    the store in a run of [race] is an error, the run contains no write,
    whatever the upstream outcomes; each error is emitted, tagged with the
    key. *)
Theorem race_store_error_never_writes (client : redis_client) (url : string)
    (arrivals : list arrival) :
  (forall r, In (StoreDone r) arrivals -> exists err, r = GetError err) ->
  count is_store_write (race namespace expires_opt client url arrivals) = 0%nat /\
  (forall err, In (StoreDone (GetError err)) arrivals ->
     In (Emit (StoreFailure (set_key (cache_key namespace url) err)))
        (race namespace expires_opt client url arrivals)).
Proof.
  intros Herr. split.
  - assert (G : forall arrivals vars,
      (forall r, In (StoreDone r) arrivals -> exists err, r = GetError err) ->
      cached vars = None ->
      List.filter is_store_write (race_callbacks namespace expires_opt url arrivals vars) = []).
    { clear. intros arrivals. induction arrivals as [|[o|r] rest IH]; intros vars Hall Hc.
      - reflexivity.
      - rewrite race_callbacks_upstream, List.filter_app.
        destruct (race_upstream_callback_effect url o vars)
          as (Hca & _ & [Hw|(cur & _ & Hne & _)]); [|congruence].
        rewrite Hw. apply IH; [intros; apply Hall; now right|congruence].
      - rewrite race_callbacks_store, List.filter_app.
        destruct (Hall r (or_introl eq_refl)) as [err ->].
        simpl. apply IH; [intros; apply Hall; now right|assumption]. }
    unfold count, race. rewrite List.filter_app, (G arrivals race_init Herr eq_refl).
    unfold race_issue. now destruct (below_high_water client).
  - intros err Hin. unfold race. apply in_or_app. right.
    generalize race_init. clear Herr.
    induction arrivals as [|[o|r] rest IH]; intros vars; [destruct Hin| |].
    + rewrite race_callbacks_upstream. apply in_or_app. right.
      destruct Hin as [Hin|Hin]; [discriminate|]. now apply IH.
    + rewrite race_callbacks_store. apply in_or_app.
      destruct Hin as [Hin|Hin].
      * injection Hin as ->. left. now left.
      * right. now apply IH.
Qed.

Lemma race_single_write (url : string) (a b : arrival) (vars : race_vars) :
  cached vars = None -> current vars = None ->
  (upstream_arrivals [a; b] <= 1)%nat -> (store_arrivals [a; b] <= 1)%nat ->
  (length (List.filter is_store_write
             (race_callbacks namespace expires_opt url [a; b] vars)) <= 1)%nat.
Proof.
  intros Hca Hcu Hu Hs.
  destruct a as [o|r], b as [o'|r'];
    try (unfold upstream_arrivals in Hu; simpl in Hu; lia);
    try (unfold store_arrivals in Hs; simpl in Hs; lia).
  - rewrite race_callbacks_upstream, race_callbacks_store. simpl race_callbacks.
    rewrite app_nil_r, List.filter_app, length_app.
    destruct (race_upstream_callback_effect url o vars)
      as (_ & _ & [Hw|(cur & _ & Hne & _)]); [|congruence].
    rewrite Hw. simpl.
    destruct (race_store_callback_effect url r'
                (fst (race_upstream_callback namespace expires_opt url o vars)))
      as (_ & _ & [Hw'|(cur & _ & _ & Hw')]); rewrite Hw'; simpl; lia.
  - rewrite race_callbacks_store, race_callbacks_upstream. simpl race_callbacks.
    rewrite app_nil_r, List.filter_app, length_app.
    destruct (race_store_callback_effect url r vars)
      as (_ & _ & [Hw|(cur & Hc & _ & _)]); [|congruence].
    rewrite Hw. simpl.
    destruct (race_upstream_callback_effect url o'
                (fst (race_store_callback namespace expires_opt url r vars)))
      as (_ & _ & [Hw'|(cur & _ & _ & Hw')]); rewrite Hw'; simpl; lia.
Qed.

(** X20. [race] writes at most once. In a run in which each of the two
    calls completes at most once, at most one write is issued, in either
    order of the completions. *)
Theorem race_writes_at_most_once (client : redis_client) (url : string)
    (arrivals : list arrival) :
  (upstream_arrivals arrivals <= 1)%nat -> (store_arrivals arrivals <= 1)%nat ->
  (count is_store_write (race namespace expires_opt client url arrivals) <= 1)%nat.
Proof.
  intros Hu Hs. unfold count, race. rewrite List.filter_app, length_app.
  replace (List.filter is_store_write (race_issue namespace client url)) with (@nil event)
    by (unfold race_issue; now destruct (below_high_water client)).
  simpl.
  destruct arrivals as [|a [|b [|c rest]]].
  - simpl. lia.
  - destruct a as [o|r].
    + rewrite race_callbacks_upstream. simpl race_callbacks. rewrite app_nil_r.
      destruct (race_upstream_callback_effect url o race_init)
        as (_ & _ & [Hw|(cur & _ & Hne & _)]); [rewrite Hw; simpl; lia|].
      now destruct Hne.
    + rewrite race_callbacks_store. simpl race_callbacks. rewrite app_nil_r.
      destruct (race_store_callback_effect url r race_init)
        as (_ & _ & [Hw|(cur & Hc & _ & _)]); [rewrite Hw; simpl; lia|discriminate].
  - now apply race_single_write.
  - exfalso. unfold upstream_arrivals, store_arrivals in *.
    destruct a, b, c; simpl in *; lia.
Qed.

(** X21. [race] fills the store on a miss. When the lookup answers that
    there is no entry and the upstream outcome is one that [encode]
    accepts, the run writes that entry once, in either order of the two
    completions, and a later read of the key returns its bytes. *)
Theorem race_populates_on_miss (client : redis_client) (url : string) (o : outcome)
    (cur : entry) (arrivals : list arrival) (s : gmap string (Buffer * expiry)) :
  encode (u_err o) (u_buffer o) = Return (Some cur) ->
  arrivals = [StoreDone (GetReply None); UpstreamDone o] \/
  arrivals = [UpstreamDone o; StoreDone (GetReply None)] ->
  let t := race namespace expires_opt client url arrivals in
  List.filter is_store_write t =
    [StoreSetex (cache_key namespace url) (resolve_expires expires_opt url) (Some cur)] /\
  store_read (store_after s t) (cache_key namespace url) = Some (entry_bytes cur).
Proof.
  intros E Harr t.
  pose proof (encode_entry_truthy _ _ _ E) as T.
  assert (Hw : List.filter is_store_write t =
               [StoreSetex (cache_key namespace url) (resolve_expires expires_opt url)
                  (Some cur)]).
  { subst t. unfold race. rewrite List.filter_app.
    replace (List.filter is_store_write (race_issue namespace client url)) with (@nil event)
      by (unfold race_issue; now destruct (below_high_water client)).
    destruct Harr as [-> | ->].
    - rewrite race_callbacks_store, race_callbacks_upstream. simpl.
      unfold race_upstream_callback. rewrite E. simpl.
      unfold reconcile. simpl. rewrite T. unfold finalize. simpl. reflexivity.
    - rewrite race_callbacks_upstream, race_callbacks_store. simpl.
      unfold race_upstream_callback. rewrite E. simpl.
      unfold reconcile. simpl. rewrite T. unfold finalize. simpl. reflexivity. }
  split; [exact Hw|].
  rewrite store_after_writes, Hw. apply store_read_after_write.
Qed.

End Race.

Section Decorated.
Context {platform : Platform}.

(** X22. The writes of a decorated function. Every write issued by a
    function that [cachingGet] returned, in any run of the strategy it
    chose, is made under the key [namespace-url], with an entry (never
    [null]) and with an expiry that is not 0: the number given as
    [expires] (300 when none is given), or the expiry resolved from the
    table for the url. *)
Theorem decorated_writes (namespace : option string) (options : option user_options)
    (get : option (receiver -> string -> outcome)) (d : decorated)
    (client : redis_client) (url : string) (r : store_reply) (arrivals : list arrival)
    (key : string) (ttl : expiry) (v : option entry) :
  cachingGet namespace options get = Built d ->
  In (StoreSetex key ttl v) (decorated_call d client url r arrivals) ->
  namespace = Some (d_namespace d) /\
  key = d_namespace d +:+ "-" +:+ url /\
  ttl = resolve_expires (d_expires d) url /\ ttl <> 0 /\
  (forall n, default (ExpiresNumber 300) (options ≫= opt_expires) = ExpiresNumber n ->
     ttl = n) /\
  v <> None.
Proof.
  intros Hb Hin.
  apply cachingGet_built in Hb as (_ & Hn & _ & _ & He & Ht & _ & _).
  assert (Hshape : key = cache_key (d_namespace d) url /\
                   ttl = resolve_expires (d_expires d) url /\ v <> None).
  { unfold decorated_call in Hin. destruct (d_strategy d).
    - now apply readthrough_write_shape in Hin.
    - apply race_write_shape in Hin as (Hk & Httl & o & cur & _ & _ & ->).
      repeat split; auto; discriminate. }
  destruct Hshape as (-> & -> & Hv). repeat split; auto.
  - now apply resolve_expires_nonzero.
  - intros n Hn'. rewrite He, Hn'. reflexivity.
Qed.

End Decorated.

Section Classification.
Context {platform : Platform}.

(** X23. Which failures [errcode] recognises, lines 169-176, and what the
    cache keeps of them. The status is read before the code, and both are
    compared with the numbers 404 and 403 by [===]: the answer is 404 when
    the status is 404, or when the status is not 403 and the code is 404;
    it is 403 when the status is 403, or when the status is neither and the
    code is 403; a status or code given as a string is not recognised.  Of
    a recognised failure the cache keeps that number alone: its entry is
    [E] followed by the number whatever the payload, and the error read
    back has the number as status and as code and an empty message. *)
Theorem errcode_precedence (e : Error) :
  (errcode (Some e) = Some 404 <->
   err_status e = PVnum 404 \/ (err_status e <> PVnum 403 /\ err_code e = PVnum 404)) /\
  (errcode (Some e) = Some 403 <->
   err_status e = PVnum 403 \/
   (err_status e <> PVnum 404 /\ err_status e <> PVnum 403 /\ err_code e = PVnum 403)) /\
  (forall s c, err_status e = PVstr s -> err_code e = PVstr c -> errcode (Some e) = None) /\
  (forall n buffer, errcode (Some e) = Some n ->
     exists entry,
       encode (Some e) buffer = Return (Some entry) /\
       entry = EStr ("E" +:+ Number_toString n) /\
       decode (stored entry) =
         Return (DError (mkError EmptyString (PVnum n) (PVnum n) true None))).
Proof.
  assert (Hkeep : forall n buffer, errcode (Some e) = Some n ->
     exists entry,
       encode (Some e) buffer = Return (Some entry) /\
       entry = EStr ("E" +:+ Number_toString n) /\
       decode (stored entry) =
         Return (DError (mkError EmptyString (PVnum n) (PVnum n) true None))).
  { intros n buffer Hn. exists (EStr ("E" +:+ Number_toString n)).
    split; [exact (encode_negative (Some e) buffer n Hn)|].
    split; [reflexivity|].
    exact (proj2 (decode_negative n (errcode_cases (Some e) n Hn))). }
  revert Hkeep.
  assert (Hs : forall v n, strict_eq_num v n = true <-> v = PVnum n).
  { intros v n. destruct v; simpl; try (split; discriminate).
    rewrite Z.eqb_eq. split; congruence. }
  assert (Hf : forall v n, strict_eq_num v n = false <-> v <> PVnum n).
  { intros v n. rewrite <- Hs. now destruct (strict_eq_num v n). }
  unfold errcode.
  destruct (strict_eq_num (err_status e) 404) eqn:S4;
    [apply Hs in S4|apply Hf in S4];
    (destruct (strict_eq_num (err_status e) 403) eqn:S3;
     [apply Hs in S3|apply Hf in S3]);
    (destruct (strict_eq_num (err_code e) 404) eqn:C4;
     [apply Hs in C4|apply Hf in C4]);
    (destruct (strict_eq_num (err_code e) 403) eqn:C3;
     [apply Hs in C3|apply Hf in C3]);
    intros Hkeep; (split; [|split; [|split]]);
    try exact Hkeep;
    try (intros s c H1 H2; congruence);
    try (split; intros; try discriminate; intuition congruence).
Qed.

End Classification.

Section RaceCalls.
Context {platform : Platform}.
Variable namespace : string.
Variable expires_opt : expires_option.

Lemma race_callbacks_issue_nothing (url : string) (arrivals : list arrival) (v : race_vars) :
  count is_upstream_call (race_callbacks namespace expires_opt url arrivals v) = 0%nat /\
  count (fun e => match e with StoreGet _ => true | _ => false end)
    (race_callbacks namespace expires_opt url arrivals v) = 0%nat.
Proof.
  assert (Hr : forall (p : event -> bool) w,
            (forall k t x, p (StoreSetex k t x) = false) ->
            count p (reconcile namespace expires_opt url w) = 0%nat).
  { intros p w Hp. destruct (reconcile_shape namespace expires_opt url w)
      as [-> |(c & _ & _ & ->)]; [reflexivity|]. unfold count. simpl. now rewrite Hp. }
  revert v. induction arrivals as [|[o|r] rest IH]; intros v; [split; reflexivity| |].
  - rewrite race_callbacks_upstream, !count_app. destruct (IH
      (fst (race_upstream_callback namespace expires_opt url o v))) as [-> ->].
    unfold race_upstream_callback.
    destruct (encode _ _); simpl; [|split; reflexivity].
    destruct (sent v); simpl; rewrite ?count_app, !Hr by reflexivity; split; reflexivity.
  - rewrite race_callbacks_store, !count_app. destruct (IH
      (fst (race_store_callback namespace expires_opt url r v))) as [-> ->].
    unfold race_store_callback. destruct r as [err|[b|]]; simpl.
    + split; reflexivity.
    + destruct (sent v); simpl; [rewrite !Hr by reflexivity; split; reflexivity|].
      destruct (decode (EBuf b)) as [[e|d]|x]; simpl;
        [|destruct (jsdata_truthy d); simpl|];
        rewrite ?count_app, !Hr by reflexivity; split; reflexivity.
    + rewrite !Hr by reflexivity. split; reflexivity.
Qed.

(** X24. [race] always calls the upstream. Every run of [race] calls the
    upstream exactly once, with the source as receiver, before anything
    else, also when the store holds the entry; the store is looked up once
    when the queue is below the high-water mark and not at all
    otherwise. *)
Theorem race_always_calls_upstream (client : redis_client) (url : string)
    (arrivals : list arrival) :
  let t := race namespace expires_opt client url arrivals in
  (exists rest, t = UpstreamGet ThisSource url :: rest) /\
  count is_upstream_call t = 1%nat /\
  count (fun e => match e with StoreGet _ => true | _ => false end) t =
    (if below_high_water client then 1 else 0)%nat.
Proof.
  intros t. subst t. unfold race. split; [eexists; reflexivity|].
  rewrite !count_app.
  destruct (race_callbacks_issue_nothing url arrivals race_init) as [-> ->].
  unfold race_issue. destruct (below_high_water client); split; reflexivity.
Qed.

End RaceCalls.

(** ** Concrete runs *)

Example resolve_expires_by_host :
  resolve_expires (platform := mini_platform) per_host "http://a.com/x" = 60 /\
  resolve_expires (platform := mini_platform) per_host "http://b.com/x" = 300 /\
  resolve_expires (platform := mini_platform) (ExpiresNumber 120) "http://b.com/x" = 120.
Proof. repeat split; vm_compute; reflexivity. Qed.

Example readthrough_populates_then_hits :
  let upstream := fixed_upstream (ok_text "hello") in
  let first := readthrough (platform := mini_platform) "TL" ttl300 idle_client "/x" upstream
                 (lookup ∅ "TL-/x") in
  let second := readthrough (platform := mini_platform) "TL" ttl300 idle_client "/x" upstream
                  (lookup (store_after ∅ first) "TL-/x") in
  first = [StoreGet "TL-/x"; UpstreamGet ThisSource "/x";
           Callback None (JSstring "hello") None;
           StoreSetex "TL-/x" 300 (Some (EBuf (new_Buffer "Shello")))] /\
  second = [StoreGet "TL-/x"; Callback None (JSstring "hello") None].
Proof. split; vm_compute; reflexivity. Qed.

Example readthrough_caches_not_found :
  let upstream := fixed_upstream (mkOutcome (Some not_found_error) PAbsent None) in
  let first := readthrough (platform := mini_platform) "TL" ttl300 idle_client "/missing" upstream
                 (lookup ∅ "TL-/missing") in
  let second := readthrough (platform := mini_platform) "TL" ttl300 idle_client "/missing" upstream
                  (lookup (store_after ∅ first) "TL-/missing") in
  store_read (store_after ∅ first) "TL-/missing" = Some (new_Buffer "E404") /\
  second = [StoreGet "TL-/missing";
            Callback (Some (mkError EmptyString (PVnum 404) (PVnum 404) true None))
              JSundefined None].
Proof. split; vm_compute; reflexivity. Qed.

(** C1 (counterexample). The entry [S] decodes to the empty string; it
    arrives first, and the caller is given the upstream outcome all the
    same: the store callback delivers truthy values only. *)
Lemma cached_value_wins_counterexample :
  ~ cached_value_wins (platform := mini_platform) "TL" ttl300 idle_client "/x"
      (new_Buffer "S") (ok_text "fresh").
Proof.
  intros H. specialize (H _ eq_refl). vm_compute in H. discriminate H.
Qed.

Lemma race_delivery_rule_witness :
  (below_high_water idle_client = true /\
   decode (platform := mini_platform) (EBuf (new_Buffer "Bdata")) =
     Return (DValue (JSbuffer (new_Buffer "data"))) /\
   decoded_truthy (DValue (JSbuffer (new_Buffer "data"))) = true /\
   delivered (race (platform := mini_platform) "TL" ttl300 idle_client "/x"
                [StoreDone (GetReply (Some (new_Buffer "Bdata"))); UpstreamDone (ok_text "fresh")]) =
     [Callback None (JSbuffer (new_Buffer "data")) None]) /\
  ((exists cur, encode (platform := mini_platform) None (PText "fresh") = Return cur) /\
   delivered (race (platform := mini_platform) "TL" ttl300 idle_client "/x"
                [UpstreamDone (ok_text "fresh"); StoreDone (GetReply (Some (new_Buffer "Bdata")))]) =
     [Callback None (JSstring "fresh") None]).
Proof.
  destruct (race_delivery_rule (platform := mini_platform) "TL" ttl300 idle_client "/x")
    as [H1 H2].
  split.
  - split; [reflexivity|]. split; [reflexivity|]. split; [reflexivity|].
    apply (H1 (new_Buffer "Bdata") _ _ eq_refl eq_refl eq_refl).
  - split; [eexists; reflexivity|].
    apply (H2 (ok_text "fresh")). eexists; reflexivity.
Defined.

(** C2 (counterexample). A success whose payload is the empty string is a
    text outcome, and [encode] returns no entry for it. *)
Lemma codec_round_trip_counterexample :
  representable None (PText EmptyString) /\
  ~ round_trip (platform := mini_platform) None (PText EmptyString).
Proof.
  split; [discriminate|].
  intros (e & d & H & _). discriminate H.
Qed.

Lemma codec_round_trip_witness :
  encodable None (PObject [("id", JStr "foo")]) /\
  JSON_faithful (platform := mini_platform) (PObject [("id", JStr "foo")]) /\
  round_trip (platform := mini_platform) None (PObject [("id", JStr "foo")]) /\
  round_trip_stored (platform := mini_platform) None (PObject [("id", JStr "foo")]).
Proof.
  assert (H1 : encodable None (PObject [("id", JStr "foo")])) by reflexivity.
  assert (H2 : JSON_faithful (platform := mini_platform) (PObject [("id", JStr "foo")]))
    by reflexivity.
  split; [exact H1|]. split; [exact H2|].
  exact (codec_round_trip (platform := mini_platform) None _ H1 H2).
Defined.

(** C3 (the defect). A [race] invocation whose upstream completes with a
    success that has no payload, or the empty string: [encode] throws at
    the first line of the upstream callback, the lookup was a miss, and the
    caller's callback is never called, in either order of the
    completions. *)
Theorem race_without_payload_never_delivers (platform : Platform) :
  let miss := StoreDone (GetReply None) in
  let empty := UpstreamDone (ok_text EmptyString) in
  let absent := UpstreamDone (mkOutcome None PAbsent None) in
  race "TL" ttl300 idle_client "/x" [miss; empty] =
    [UpstreamGet ThisSource "/x"; StoreGet "TL-/x"; Uncaught TypeError] /\
  count is_callback (race "TL" ttl300 idle_client "/x" [miss; empty]) = 0%nat /\
  count is_callback (race "TL" ttl300 idle_client "/x" [empty; miss]) = 0%nat /\
  count is_callback (race "TL" ttl300 idle_client "/x" [miss; absent]) = 0%nat /\
  count is_callback (race "TL" ttl300 idle_client "/x" [absent; miss]) = 0%nat.
Proof. repeat split. Qed.

(** C4 (the defect). A [race] invocation whose upstream fails with 404
    while the store holds [E404] for the key: [encode] returns the string
    [E404], [bufferEqual] answers [undefined] for a string, and [finalize]
    writes the entry although its bytes are those already stored, in
    either order of the completions. *)
Theorem race_rewrites_identical_negative_entry (platform : Platform) :
  let o := mkOutcome (Some not_found_error) PAbsent None in
  let hit := StoreDone (GetReply (Some (new_Buffer "E404"))) in
  encode (u_err o) (u_buffer o) = Return (Some (EStr "E404")) /\
  entry_bytes (EStr "E404") = new_Buffer "E404" /\
  List.filter is_store_write (race "TL" ttl300 idle_client "/missing" [hit; UpstreamDone o]) =
    [StoreSetex "TL-/missing" 300 (Some (EStr "E404"))] /\
  List.filter is_store_write (race "TL" ttl300 idle_client "/missing" [UpstreamDone o; hit]) =
    [StoreSetex "TL-/missing" 300 (Some (EStr "E404"))].
Proof. repeat split. Qed.

(** C8 (the defect). A [readthrough] invocation whose lookup fails, with
    an upstream [get] that reads its receiver.  The diagnostic is emitted
    with the key and no write follows, but line 128 calls
    [get(url, callback)] without the source as receiver, where the miss
    path, the high-water path and [race] call [get.call(source, ...)]: the
    caller is given the failure of the receiver-less call, not the tile
    that the upstream fetch of the source gives on a miss and at the
    high-water mark. *)
Theorem readthrough_store_error_drops_receiver (platform : Platform) :
  let key := "TL-/x" in
  let on_error :=
    readthrough "TL" ttl300 idle_client "/x" source_bound_get (GetError connection_error) in
  let on_miss :=
    readthrough "TL" ttl300 idle_client "/x" source_bound_get (GetReply None) in
  let at_high_water :=
    readthrough "TL" ttl300 saturated_client "/x" source_bound_get
      (GetError connection_error) in
  on_error = [StoreGet key; Emit (StoreFailure (set_key key connection_error));
              UpstreamGet ThisUnbound "/x";
              Callback (Some not_open_error) JSundefined None] /\
  count is_store_write on_error = 0%nat /\
  on_miss = [StoreGet key; UpstreamGet ThisSource "/x";
             Callback None (JSstring "tile") None;
             StoreSetex key 300 (Some (EBuf (new_Buffer "Stile")))] /\
  at_high_water = [Emit HighWaterMark; UpstreamGet ThisSource "/x";
                   Callback None (JSstring "tile") None] /\
  race "TL" ttl300 idle_client "/x" [StoreDone (GetError connection_error)] =
    [UpstreamGet ThisSource "/x"; StoreGet key;
     Emit (StoreFailure (set_key key connection_error))] /\
  delivered on_error <> delivered on_miss /\
  delivered on_error <> delivered at_high_water.
Proof. repeat apply conj; try reflexivity; discriminate. Qed.

(** C5 (counterexample). The entry [Xabc] has no valid tag; [readthrough]
    gives the caller the error that [decode] returns and does not call the
    upstream. *)
Lemma readthrough_decode_failure_counterexample :
  undecodable (platform := mini_platform) (new_Buffer "Xabc") /\
  ~ handled_as_miss (platform := mini_platform) "TL" ttl300 "/x" (ok_text "fresh")
      (readthrough (platform := mini_platform) "TL" ttl300 idle_client "/x"
         (fixed_upstream (ok_text "fresh")) (GetReply (Some (new_Buffer "Xabc")))).
Proof.
  split.
  - left. simpl. intuition discriminate.
  - intros (_ & H & _). vm_compute in H. intuition discriminate.
Qed.

Lemma readthrough_decode_failure_witness :
  let t1 := readthrough (platform := mini_platform) "TL" ttl300 idle_client "/x"
              (fixed_upstream (ok_text "fresh")) (GetReply (Some (new_Buffer "O{bad"))) in
  let t2 := readthrough (platform := mini_platform) "TL" ttl300 idle_client "/x"
              (fixed_upstream (ok_text "fresh")) (GetReply (Some (new_Buffer "Xabc"))) in
  (below_high_water idle_client = true /\
   entry_hint (EBuf (new_Buffer "O{bad")) = "O" /\
   JSON_parse (Platform := mini_platform) "{bad" = None /\
   t1 = [StoreGet "TL-/x"; Emit (DecodeFailure "TL-/x" SyntaxError);
         UpstreamGet ThisSource "/x"; Callback None (JSstring "fresh") None;
         StoreSetex "TL-/x" 300 (Some (EBuf (new_Buffer "Sfresh")))]) /\
  (~ In (entry_hint (EBuf (new_Buffer "Xabc"))) ["O"; "S"; "B"] /\
   t2 = [StoreGet "TL-/x";
         Callback (Some (new_Error "Invalid cache value")) JSundefined None]).
Proof.
  intros t1 t2.
  assert (Hx : ~ In (entry_hint (EBuf (new_Buffer "Xabc"))) ["O"; "S"; "B"])
    by (simpl; intuition discriminate).
  split.
  - split; [reflexivity|]. split; [reflexivity|]. split; [reflexivity|].
    apply (readthrough_decode_failure (platform := mini_platform) "TL" ttl300 idle_client "/x"
             (fixed_upstream (ok_text "fresh")) (new_Buffer "O{bad") eq_refl);
      reflexivity.
  - split; [exact Hx|].
    apply (readthrough_decode_failure (platform := mini_platform) "TL" ttl300 idle_client "/x"
             (fixed_upstream (ok_text "fresh")) (new_Buffer "Xabc") eq_refl).
    + exact Hx.
    + intros [H _]. discriminate H.
Defined.

(** C6 (the defect). A [race] invocation at the high-water mark whose
    upstream completes with a success that has no payload, or the empty
    string: the store is not touched and the diagnostic is emitted, but
    [encode] throws in the upstream callback and the caller's callback is
    never called. *)
Theorem race_at_high_water_without_payload (platform : Platform) :
  below_high_water saturated_client = false /\
  race "TL" ttl300 saturated_client "/x" [UpstreamDone (ok_text EmptyString)] =
    [UpstreamGet ThisSource "/x"; Emit HighWaterMark; Uncaught TypeError] /\
  race "TL" ttl300 saturated_client "/x" [UpstreamDone (mkOutcome None PAbsent None)] =
    [UpstreamGet ThisSource "/x"; Emit HighWaterMark; Uncaught TypeError] /\
  readthrough "TL" ttl300 saturated_client "/x" (fixed_upstream (ok_text EmptyString))
    (GetReply None) =
    [Emit HighWaterMark; UpstreamGet ThisSource "/x"; Callback None (JSstring EmptyString) None].
Proof. repeat split. Qed.

Lemma opaque_failures_are_not_cached_witness :
  let o := mkOutcome (Some server_error) PAbsent None in
  let arrivals := [UpstreamDone o; StoreDone (GetReply (Some (new_Buffer "Bold")))] in
  opaque_failure o /\
  encode (platform := mini_platform) (u_err o) (u_buffer o) = Return None /\
  (forall this, opaque_failure (fixed_upstream o this "/x")) /\
  count is_store_write
    (readthrough (platform := mini_platform) "TL" ttl300 idle_client "/x"
       (fixed_upstream o) (GetReply None)) = 0%nat /\
  (forall o', In (UpstreamDone o') arrivals -> opaque_failure o') /\
  count is_store_write
    (race (platform := mini_platform) "TL" ttl300 idle_client "/x" arrivals) = 0%nat.
Proof.
  intros o arrivals.
  assert (Ho : opaque_failure o) by (split; [discriminate|reflexivity]).
  assert (Hall : forall o', In (UpstreamDone o') arrivals -> opaque_failure o').
  { intros o' [H|[H|[]]]; [injection H as <-; exact Ho|discriminate H]. }
  destruct (opaque_failures_are_not_cached (platform := mini_platform)
              "TL" ttl300 idle_client "/x") as (H1 & H2 & H3).
  split; [exact Ho|]. split; [exact (H1 o Ho)|]. split; [intros this; exact Ho|].
  split; [exact (H2 (fixed_upstream o) (GetReply None) (fun _ => Ho))|].
  split; [exact Hall|]. exact (H3 arrivals Hall).
Defined.

Lemma readthrough_store_read_error_witness :
  below_high_water idle_client = true /\
  readthrough (platform := mini_platform) "TL" ttl300 idle_client "/x"
    (fixed_upstream (ok_text "fresh")) (GetError connection_error) =
  [StoreGet "TL-/x"; Emit (StoreFailure (set_key "TL-/x" connection_error));
   UpstreamGet ThisUnbound "/x"; Callback None (JSstring "fresh") None].
Proof.
  split; [reflexivity|].
  apply (readthrough_store_read_error (platform := mini_platform) "TL" ttl300 idle_client "/x"
           (fixed_upstream (ok_text "fresh")) connection_error eq_refl).
Defined.

(** C9 (counterexample). The upstream passes headers with its payload; on
    a hit for the entry of that outcome the caller is given the payload
    without headers. *)
Lemma cache_hit_transparent_counterexample :
  let o := mkOutcome None (PBinary (new_Buffer "png")) (Some png_headers) in
  ~ cache_hit_transparent (platform := mini_platform) "TL" ttl300 idle_client "/x"
      (fixed_upstream o) o.
Proof.
  intros o H. specialize (H _ eq_refl). vm_compute in H. discriminate H.
Qed.

Lemma cache_hit_outcome_witness :
  let o := mkOutcome None (PBinary (new_Buffer "png")) (Some png_headers) in
  let e := EBuf (new_Buffer "Bpng") in
  below_high_water idle_client = true /\
  encode (platform := mini_platform) (u_err o) (u_buffer o) = Return (Some e) /\
  JSON_faithful (platform := mini_platform) (u_buffer o) /\
  exists err data,
    readthrough (platform := mini_platform) "TL" ttl300 idle_client "/x" (fixed_upstream o)
      (GetReply (Some (entry_bytes e))) = [StoreGet "TL-/x"; Callback err data None] /\
    (forall rest,
       delivered (race (platform := mini_platform) "TL" ttl300 idle_client "/x"
                    (StoreDone (GetReply (Some (entry_bytes e))) :: rest)) =
         [Callback err data None]) /\
    outcome_kind err data = outcome_kind (u_err o) (payload_data (u_buffer o)).
Proof.
  intros o e. split; [reflexivity|]. split; [reflexivity|]. split; [exact I|].
  exact (cache_hit_outcome (platform := mini_platform) "TL" ttl300 idle_client "/x"
           (fixed_upstream o) o e eq_refl eq_refl I).
Defined.

(** ** Instances of the further properties *)

Lemma decode_throws_exactly_witness :
  entry_hint (EBuf (new_Buffer "O{bad")) = "O" /\
  JSON_parse (Platform := mini_platform) "{bad" = None /\
  exists e, decode (platform := mini_platform) (EBuf (new_Buffer "O{bad")) = Throw e.
Proof.
  split; [reflexivity|]. split; [reflexivity|].
  apply (proj1 (decode_throws_exactly (platform := mini_platform)
                  (EBuf (new_Buffer "O{bad")))).
  split; reflexivity.
Defined.

Lemma decode_error_values_witness :
  decode (platform := mini_platform) (EBuf (new_Buffer "E403")) =
    Return (DError (mkError EmptyString (PVnum 403) (PVnum 403) true None)) /\
  ((exists n, (n = 404 \/ n = 403) /\
      entry_hint (EBuf (new_Buffer "E403")) = "E" /\
      entry_toString (entry_rest (EBuf (new_Buffer "E403"))) = Number_toString n /\
      mkError EmptyString (PVnum 403) (PVnum 403) true None =
        mkError EmptyString (PVnum n) (PVnum n) true None /\
      errcode (Some (mkError EmptyString (PVnum 403) (PVnum 403) true None)) = Some n) \/
   (mkError EmptyString (PVnum 403) (PVnum 403) true None = new_Error "Invalid cache value" /\
    errcode (Some (mkError EmptyString (PVnum 403) (PVnum 403) true None)) = None /\
    forall buffer,
      encode (platform := mini_platform)
        (Some (mkError EmptyString (PVnum 403) (PVnum 403) true None)) buffer = Return None)).
Proof.
  split; [reflexivity|].
  exact (decode_error_values (platform := mini_platform) (EBuf (new_Buffer "E403")) _ eq_refl).
Defined.

Lemma encode_entry_is_tagged_witness :
  encode (platform := mini_platform) None (PText "hello") =
    Return (Some (EBuf (new_Buffer "Shello"))) /\
  In (entry_hint (EBuf (new_Buffer "Shello"))) ["E"; "O"; "S"; "B"] /\
  In (entry_hint (stored (EBuf (new_Buffer "Shello")))) ["E"; "O"; "S"; "B"] /\
  decode (platform := mini_platform) (EBuf (new_Buffer "Shello")) <>
    Return (DError (new_Error "Invalid cache value")) /\
  decode (platform := mini_platform) (stored (EBuf (new_Buffer "Shello"))) <>
    Return (DError (new_Error "Invalid cache value")).
Proof.
  split; [reflexivity|].
  exact (encode_entry_is_tagged (platform := mini_platform) None (PText "hello") _ eq_refl).
Defined.

Lemma encode_throws_exactly_witness :
  (payload_truthy PAbsent = false /\
   exists x, encode (platform := mini_platform) None PAbsent = Throw x) /\
  (Some server_error <> None /\
   forall buffer', encode (platform := mini_platform) (Some server_error) buffer' =
                   encode (platform := mini_platform) (Some server_error) PAbsent).
Proof.
  split.
  - split; [reflexivity|].
    apply (proj1 (encode_throws_exactly (platform := mini_platform) None PAbsent)).
    split; reflexivity.
  - assert (H : Some server_error <> None) by discriminate.
    split; [exact H|].
    exact (proj1 (proj2 (proj2 (encode_throws_exactly (platform := mini_platform)
                                  (Some server_error) PAbsent)) H)).
Defined.

Lemma entries_identify_outcomes_witness :
  encode (platform := mini_platform) (Some not_found_error) PAbsent =
    Return (Some (EStr "E404")) /\
  encode (platform := mini_platform) (Some code_not_found_error) (PText "gone") =
    Return (Some (EStr "E404")) /\
  outcome_kind (Some not_found_error) (payload_data PAbsent) =
  outcome_kind (Some code_not_found_error) (payload_data (PText "gone")).
Proof.
  split; [reflexivity|]. split; [reflexivity|].
  exact (entries_identify_outcomes (platform := mini_platform)
           (Some not_found_error) (Some code_not_found_error) PAbsent (PText "gone")
           (EStr "E404") (EStr "E404") eq_refl eq_refl I I eq_refl).
Defined.

Lemma expiry_by_hostname_witness :
  (host_table !! "a.com" = Some 60 /\
   resolve_expires (platform := mini_platform) (ExpiresByHost host_table) "http://a.com/x" =
     Seconds 60) /\
  (host_table !! "constructor" = None /\ inherited "constructor" = true /\
   resolve_expires (platform := mini_platform) (ExpiresByHost host_table)
     "http://constructor/x" = Inherited "constructor") /\
  (host_table !! "b.com" = None /\ inherited "b.com" = false /\
   host_table !! "default" = Some 300 /\
   resolve_expires (platform := mini_platform) (ExpiresByHost host_table) "http://b.com/x" =
     Seconds 300).
Proof.
  assert (Ha : host_table !! "a.com" = Some 60) by (vm_compute; reflexivity).
  assert (Hc : host_table !! "constructor" = None) by (vm_compute; reflexivity).
  assert (Hb : host_table !! "b.com" = None) by (vm_compute; reflexivity).
  assert (Hd : host_table !! "default" = Some 300) by (vm_compute; reflexivity).
  split; [|split].
  - split; [exact Ha|].
    apply (proj1 (proj2 (expiry_by_hostname (platform := mini_platform) host_table
                           "http://a.com/x")) 60); [exact Ha|discriminate].
  - split; [exact Hc|]. split; [reflexivity|].
    apply (proj1 (proj2 (proj2 (expiry_by_hostname (platform := mini_platform) host_table
                                  "http://constructor/x"))));
      [exact Hc|reflexivity].
  - split; [exact Hb|]. split; [reflexivity|]. split; [exact Hd|].
    apply (proj1 (proj2 (proj2 (proj2 (expiry_by_hostname (platform := mini_platform)
                                         host_table "http://b.com/x")))) 300);
      [right; split; [exact Hb|reflexivity]|exact Hd|discriminate].
Defined.

Lemma cachingGet_accepts_witness :
  exists d, cachingGet (Some "tiles") (Some race_options) (Some (fixed_upstream hello)) = Built d.
Proof.
  apply (proj1 (cachingGet_accepts (Some "tiles") (Some race_options)
                  (Some (fixed_upstream hello)))).
  split; [discriminate|]. split; [exists "tiles"; split; [reflexivity|discriminate]|].
  split; [discriminate|]. right. reflexivity.
Defined.

Lemma cachingGet_complaints_witness :
  cachingGet (Some "tiles") (Some bogus_options) (Some (fixed_upstream hello)) =
    Fails "Invalid value for options.mode bogus" /\
  cachingGet None (Some bogus_options) (Some (fixed_upstream hello)) =
    Fails "No namespace provided".
Proof.
  pose proof (cachingGet_complaints (Some "tiles") (Some bogus_options)
                (Some (fixed_upstream hello))) as (_ & _ & _ & H).
  pose proof (cachingGet_complaints None (Some bogus_options)
                (Some (fixed_upstream hello))) as (_ & H' & _).
  split.
  - apply H; try discriminate. intros [E|E]; discriminate E.
  - apply H'; [discriminate|]. now left.
Defined.

Lemma module_exports_wraps_witness :
  module_exports None (Some (mkSource None)) = Fails "No get method found on source" /\
  module_exports None (Some (mkSource (Some (fixed_upstream hello)))) =
    cachingGet (Some "TL") None (Some (fixed_upstream hello)).
Proof.
  split.
  - exact (proj1 (proj2 (module_exports_wraps None (Some (mkSource None))))
             (mkSource None) eq_refl eq_refl).
  - exact (proj1 (proj2 (proj2 (module_exports_wraps None
                                  (Some (mkSource (Some (fixed_upstream hello)))))))
             _ _ eq_refl eq_refl).
Defined.

Lemma cache_key_injective_witness :
  occurs "-" "TL" = false /\ occurs "-" "tiles" = false /\
  (cache_key "TL" "/x" = cache_key "tiles" "/x" -> "TL" = "tiles" /\ "/x" = "/x").
Proof.
  split; [reflexivity|]. split; [reflexivity|].
  exact (proj1 (proj2 cache_key_injective) "TL" "tiles" "/x" "/x" eq_refl eq_refl).
Defined.

Lemma readthrough_answers_before_writing_witness :
  let t := readthrough (platform := mini_platform) "TL" ttl300 idle_client "/x"
             (fixed_upstream hello) (GetReply None) in
  let w := StoreSetex "TL-/x" 300 (Some (EBuf (new_Buffer "Shello"))) in
  In w t /\
  exists before e,
    t = before ++ [w] /\
    count is_callback before = 1%nat /\
    count is_store_write before = 0%nat /\
    In (StoreGet "TL-/x") before /\ In (UpstreamGet ThisSource "/x") before /\
    "TL-/x" = cache_key "TL" "/x" /\
    Seconds 300 = resolve_expires (platform := mini_platform) ttl300 "/x" /\
    Some (EBuf (new_Buffer "Shello")) = Some e /\
    encode (platform := mini_platform) None (PText "hello") = Return (Some e).
Proof.
  intros t w.
  assert (Hin : In w t) by (right; right; right; left; reflexivity).
  split; [exact Hin|].
  exact (readthrough_answers_before_writing (platform := mini_platform) "TL" ttl300
           idle_client "/x" (fixed_upstream hello) (GetReply None) _ _ _ Hin).
Defined.

Lemma readthrough_second_call_hits_witness :
  let first := readthrough (platform := mini_platform) "TL" ttl300 idle_client "/x"
                 (fixed_upstream hello) (lookup ∅ "TL-/x") in
  store_read (∅ : gmap string (Buffer * expiry)) "TL-/x" = None /\
  exists err data,
    readthrough (platform := mini_platform) "TL" ttl300 idle_client "/x"
      (fixed_upstream (mkOutcome (Some server_error) PAbsent None))
      (lookup (store_after ∅ first) "TL-/x") =
      [StoreGet "TL-/x"; Callback err data None] /\
    outcome_kind err data = Ok (JSstring "hello").
Proof.
  intros first.
  assert (Hmiss : store_read (∅ : gmap string (Buffer * expiry)) (cache_key "TL" "/x") = None)
    by reflexivity.
  split; [exact Hmiss|].
  exact (proj2 (proj2 (readthrough_second_call_hits (platform := mini_platform) "TL" ttl300
           idle_client idle_client "/x" (fixed_upstream hello)
           (fixed_upstream (mkOutcome (Some server_error) PAbsent None))
           ∅ (EBuf (new_Buffer "Shello")) eq_refl eq_refl Hmiss eq_refl I))).
Defined.

Lemma readthrough_unrecognised_failure_witness :
  let o := mkOutcome (Some server_error) (PText "oops") (Some png_headers) in
  (forall this, opaque_failure (fixed_upstream o this "/x")) /\
  delivered (readthrough (platform := mini_platform) "TL" ttl300 idle_client "/x"
               (fixed_upstream o) (GetReply None)) =
    [Callback (Some server_error) JSundefined None] /\
  delivered (readthrough (platform := mini_platform) "TL" ttl300 saturated_client "/x"
               (fixed_upstream o) (GetReply None)) =
    [Callback (Some server_error) (JSstring "oops") (Some png_headers)].
Proof.
  intros o.
  assert (Ho : forall this, opaque_failure (fixed_upstream o this "/x"))
    by (intros this; split; [discriminate|reflexivity]).
  split; [exact Ho|]. split.
  - exact (proj1 (proj1 (readthrough_unrecognised_failure (platform := mini_platform)
             "TL" ttl300 idle_client "/x" (fixed_upstream o) connection_error Ho) eq_refl)).
  - exact (proj2 (readthrough_unrecognised_failure (platform := mini_platform)
             "TL" ttl300 saturated_client "/x" (fixed_upstream o) connection_error Ho)
             eq_refl (GetReply None)).
Defined.

Lemma race_writes_upstream_encoding_witness :
  let arrivals := [StoreDone (GetReply (Some (new_Buffer "Sold"))); UpstreamDone hello] in
  let w := StoreSetex "TL-/x" 300 (Some (EBuf (new_Buffer "Shello"))) in
  In w (race (platform := mini_platform) "TL" ttl300 idle_client "/x" arrivals) /\
  exists o cur,
    In (UpstreamDone o) arrivals /\
    encode (platform := mini_platform) (u_err o) (u_buffer o) = Return (Some cur) /\
    Some (EBuf (new_Buffer "Shello")) = Some cur.
Proof.
  intros arrivals w.
  assert (Hin : In w (race (platform := mini_platform) "TL" ttl300 idle_client "/x" arrivals))
    by (vm_compute; auto).
  split; [exact Hin|].
  exact (proj2 (proj2 (race_writes_upstream_encoding (platform := mini_platform) "TL" ttl300
           idle_client "/x" arrivals _ _ _ Hin))).
Defined.

Lemma race_store_error_never_writes_witness :
  let arrivals := [StoreDone (GetError connection_error); UpstreamDone hello] in
  (forall r, In (StoreDone r) arrivals -> exists err, r = GetError err) /\
  count is_store_write (race (platform := mini_platform) "TL" ttl300 idle_client "/x" arrivals) =
    0%nat.
Proof.
  intros arrivals.
  assert (H : forall r, In (StoreDone r) arrivals -> exists err, r = GetError err).
  { intros r [Hr|[Hr|[]]]; [injection Hr as <-; eauto|discriminate Hr]. }
  split; [exact H|].
  exact (proj1 (race_store_error_never_writes (platform := mini_platform) "TL" ttl300
           idle_client "/x" arrivals H)).
Defined.

Lemma race_writes_at_most_once_witness :
  let arrivals := [UpstreamDone hello; StoreDone (GetReply (Some (new_Buffer "Sold")))] in
  (upstream_arrivals arrivals <= 1)%nat /\ (store_arrivals arrivals <= 1)%nat /\
  (count is_store_write (race (platform := mini_platform) "TL" ttl300 idle_client "/x" arrivals)
   <= 1)%nat.
Proof.
  intros arrivals.
  assert (Hu : (upstream_arrivals arrivals <= 1)%nat) by (vm_compute; lia).
  assert (Hs : (store_arrivals arrivals <= 1)%nat) by (vm_compute; lia).
  split; [exact Hu|]. split; [exact Hs|].
  exact (race_writes_at_most_once (platform := mini_platform) "TL" ttl300 idle_client "/x"
           arrivals Hu Hs).
Defined.

Lemma race_populates_on_miss_witness :
  let arrivals := [UpstreamDone hello; StoreDone (GetReply None)] in
  let t := race (platform := mini_platform) "TL" ttl300 idle_client "/x" arrivals in
  encode (platform := mini_platform) None (PText "hello") =
    Return (Some (EBuf (new_Buffer "Shello"))) /\
  List.filter is_store_write t =
    [StoreSetex "TL-/x" 300 (Some (EBuf (new_Buffer "Shello")))] /\
  store_read (store_after ∅ t) "TL-/x" = Some (new_Buffer "Shello").
Proof.
  intros arrivals t. split; [reflexivity|].
  exact (race_populates_on_miss (platform := mini_platform) "TL" ttl300 idle_client "/x"
           hello (EBuf (new_Buffer "Shello")) arrivals ∅ eq_refl (or_intror eq_refl)).
Defined.

Lemma decorated_writes_witness :
  let d := mkDecorated "tiles" (mkSettings true) (ExpiresByHost host_table) "race"
             (fixed_upstream hello) Race in
  let arrivals := [UpstreamDone hello; StoreDone (GetReply None)] in
  let w := StoreSetex "tiles-http://a.com/x" 60 (Some (EBuf (new_Buffer "Shello"))) in
  cachingGet (Some "tiles") (Some race_options) (Some (fixed_upstream hello)) = Built d /\
  In w (decorated_call (platform := mini_platform) d idle_client "http://a.com/x"
          (GetReply None) arrivals) /\
  "tiles-http://a.com/x" = d_namespace d +:+ "-" +:+ "http://a.com/x" /\
  Seconds 60 <> Seconds 0.
Proof.
  intros d arrivals w.
  assert (Hb : cachingGet (Some "tiles") (Some race_options) (Some (fixed_upstream hello)) =
               Built d) by reflexivity.
  assert (Hin : In w (decorated_call (platform := mini_platform) d idle_client
                        "http://a.com/x" (GetReply None) arrivals))
    by (vm_compute; auto).
  split; [exact Hb|]. split; [exact Hin|].
  pose proof (decorated_writes (platform := mini_platform) _ _ _ d idle_client
                "http://a.com/x" (GetReply None) arrivals _ _ _ Hb Hin)
    as (_ & Hk & _ & Hz & _).
  split; [exact Hk|exact Hz].
Defined.

Lemma race_delivers_once_witness :
  let arrivals := [StoreDone (GetReply (Some (new_Buffer "Sold"))); UpstreamDone hello] in
  (forall o, In (UpstreamDone o) arrivals ->
     exists cur, encode (platform := mini_platform) (u_err o) (u_buffer o) = Return cur) /\
  (1 <= upstream_arrivals arrivals)%nat /\
  count is_callback (race (platform := mini_platform) "TL" ttl300 idle_client "/x" arrivals) =
    1%nat.
Proof.
  intros arrivals.
  assert (H : forall o, In (UpstreamDone o) arrivals ->
                exists cur, encode (platform := mini_platform) (u_err o) (u_buffer o) = Return cur).
  { intros o [Ho|[Ho|[]]]; [discriminate Ho|]. injection Ho as <-. eexists. reflexivity. }
  assert (Hu : (1 <= upstream_arrivals arrivals)%nat) by (vm_compute; lia).
  split; [exact H|]. split; [exact Hu|].
  exact (race_delivers_once (platform := mini_platform) "TL" ttl300 idle_client "/x"
           arrivals H Hu).
Defined.

Lemma race_reconciliation_witness :
  let arrivals := [StoreDone (GetReply (Some (new_Buffer "Sold"))); UpstreamDone hello] in
  let t := race (platform := mini_platform) "TL" ttl300 idle_client "/x" arrivals in
  new_Buffer "Sold" <> new_Buffer "Shello" /\
  List.filter is_store_write t =
    [StoreSetex "TL-/x" 300 (Some (EBuf (new_Buffer "Shello")))] /\
  store_read (store_after ∅ t) "TL-/x" = Some (new_Buffer "Shello").
Proof.
  intros arrivals t.
  assert (Hne : new_Buffer "Sold" <> new_Buffer "Shello") by discriminate.
  split; [exact Hne|].
  exact (proj2 (race_reconciliation (platform := mini_platform) "TL" ttl300 idle_client "/x"
           (new_Buffer "Sold") hello (new_Buffer "Shello") arrivals ∅ eq_refl
           (or_introl eq_refl)) Hne).
Defined.

Lemma backpressure_guard_witness :
  below_high_water saturated_client = false /\
  readthrough (platform := mini_platform) "TL" ttl300 saturated_client "/x"
    (fixed_upstream hello) (GetReply None) =
    [Emit HighWaterMark; UpstreamGet ThisSource "/x"; Callback None (JSstring "hello") None] /\
  count is_store_access
    (race (platform := mini_platform) "TL" ttl300 saturated_client "/x" [UpstreamDone hello]) =
    0%nat.
Proof.
  destruct (backpressure_guard (platform := mini_platform) "TL" ttl300 saturated_client "/x"
              eq_refl) as [H1 H2].
  split; [reflexivity|]. split.
  - exact (H1 (fixed_upstream hello) (GetReply None)).
  - exact (proj1 (H2 hello)).
Defined.

Lemma errcode_precedence_witness :
  let e := mkError "Forbidden" (PVnum 403) (PVnum 404) false None in
  errcode (Some e) = Some 403 /\
  exists entry,
    encode (platform := mini_platform) (Some e) (PText "body") = Return (Some entry) /\
    entry = EStr ("E" +:+ Number_toString 403) /\
    decode (platform := mini_platform) (stored entry) =
      Return (DError (mkError EmptyString (PVnum 403) (PVnum 403) true None)).
Proof.
  intros e.
  destruct (errcode_precedence (platform := mini_platform) e) as (_ & H403 & _ & Hkeep).
  assert (H : errcode (Some e) = Some 403) by (apply H403; left; reflexivity).
  split; [exact H|]. exact (Hkeep 403 (PText "body") H).
Defined.

Lemma readthrough_delivers_exactly_once_witness :
  count is_callback
    (readthrough (platform := mini_platform) "TL" ttl300 idle_client "/x"
       (fixed_upstream (mkOutcome None PAbsent None)) (GetReply None)) = 1%nat.
Proof.
  exact (proj1 (readthrough_delivers_exactly_once (platform := mini_platform) "TL" ttl300
                  idle_client "/x" (fixed_upstream (mkOutcome None PAbsent None))
                  (GetReply None))).
Defined.

Lemma race_always_calls_upstream_witness :
  count is_upstream_call
    (race (platform := mini_platform) "TL" ttl300 idle_client "/x"
       [StoreDone (GetReply (Some (new_Buffer "Sold"))); UpstreamDone hello]) = 1%nat.
Proof.
  exact (proj1 (proj2 (race_always_calls_upstream (platform := mini_platform) "TL" ttl300
                  idle_client "/x"
                  [StoreDone (GetReply (Some (new_Buffer "Sold"))); UpstreamDone hello]))).
Defined.
